(** * Team belief DAG solver and extensive-form game loader

    A shallow embedding of [src/team_belief_dag.py] and [src/parser.py].

    Python dictionaries are finite maps ([gmap]); a failing dictionary
    lookup raises [KeyError], an ill-typed arithmetic operation raises
    [TypeError], the read of an attribute an object does not have raises
    [AttributeError].  Methods mutate [self] in place, so an exception leaves
    the object with every assignment made before the failing expression:
    an [outcome] carries the state in both cases.

    Numbers are exact rationals ([Qc]): the rounding of binary floating
    point is not modelled. *)

From Stdlib Require Import Ascii QArith Qcanon.
From stdpp Require Import gmap strings list fin_maps sorting pretty numbers.

Local Open Scope Qc_scope.

(** ** Control flow shared by both modules *)

Module py.

(** The result of running a block of statements on a mutable state. *)
Inductive outcome (E S : Type) : Type :=
| Done (s : S)
| Raised (e : E) (s : S).
Arguments Done {E S} s.
Arguments Raised {E S} e s.

(** The state the block leaves behind, finished or not. *)
Definition final {E S} (o : outcome E S) : S :=
  match o with Done s => s | Raised _ s => s end.

(** Sequencing: run [k] on the state [o] finished with. *)
Definition and_then {E S} (o : outcome E S) (k : S → outcome E S) : outcome E S :=
  match o with Done s => k s | Raised e s => Raised e s end.

(** Evaluate an expression that may raise, then continue with its value. *)
Definition eval {E S A} (r : E + A) (s : S) (k : A → outcome E S) : outcome E S :=
  match r with inl e => Raised e s | inr a => k a end.

(** [for item in l: body]. *)
Fixpoint for_each {E S A} (body : A → S → outcome E S) (l : list A) (s : S)
  : outcome E S :=
  match l with
  | [] => Done s
  | a :: l' => and_then (body a s) (for_each body l')
  end.

(** [sum(f(item) for item in l)], accumulated from the left starting at
    [acc] (Python starts at 0). *)
Fixpoint sum_from {E A} (f : A → E + Qc) (acc : Qc) (l : list A) : E + Qc :=
  match l with
  | [] => inr acc
  | a :: l' =>
      match f a with
      | inl e => inl e
      | inr v => sum_from f (acc + v) l'
      end
  end.

(** [max(a, b)] on numbers: the first argument unless the second is
    strictly greater. *)
Definition max (a b : Qc) : Qc := if decide (a < b) then b else a.

(** [len(l)] as a number. *)
Definition len {A} (l : list A) : Qc := Qc_of_Z (Z.of_nat (length l)).

End py.

Import py.

(** ** [parser.py] *)

Module parser.

(** *** The string methods the loader calls

    Characters are code points below 256. *)

(** [c.isspace()] *)
Definition is_space (c : ascii) : bool :=
  bool_decide (nat_of_ascii c ∈ [9; 10; 11; 12; 13; 28; 29; 30; 31; 32; 133; 160]%nat).

(** [s.lstrip()] *)
Fixpoint lstrip (s : string) : string :=
  match s with
  | EmptyString => EmptyString
  | String c s' => if is_space c then lstrip s' else s
  end.

(** [s.rstrip()] *)
Fixpoint rstrip (s : string) : string :=
  match s with
  | EmptyString => EmptyString
  | String c s' =>
      match rstrip s' with
      | EmptyString => if is_space c then EmptyString else String c EmptyString
      | r => String c r
      end
  end.

(** [s.strip()] *)
Definition strip (s : string) : string := rstrip (lstrip s).

(** [s[n:]] *)
Fixpoint slice_from (n : nat) (s : string) : string :=
  match n, s with
  | O, _ => s
  | S n', EmptyString => EmptyString
  | S n', String _ s' => slice_from n' s'
  end.

(** [s[:n]] *)
Fixpoint slice_to (n : nat) (s : string) : string :=
  match n, s with
  | O, _ => EmptyString
  | S n', EmptyString => EmptyString
  | S n', String c s' => String c (slice_to n' s')
  end.

(** [s.startswith(p)] *)
Definition startswith (p s : string) : bool := String.prefix p s.

(** [s.split(sep, 1)] for a non-empty [sep]: [None] when the result is
    the one-element list [[s]], otherwise the text before and after the
    first occurrence of [sep]. *)
Fixpoint split_once (sep s : string) : option (string * string) :=
  if startswith sep s then Some (EmptyString, slice_from (String.length sep) s)
  else
    match s with
    | EmptyString => None
    | String c s' =>
        match split_once sep s' with
        | Some (before, after) => Some (String c before, after)
        | None => None
        end
    end.

(** [s.split()]: the maximal runs of characters that are not white space. *)
Fixpoint split (s : string) : list string :=
  match s with
  | EmptyString => []
  | String c s' =>
      if is_space c then split s'
      else
        match s' with
        | EmptyString => [String c EmptyString]
        | String c' _ =>
            if is_space c' then String c EmptyString :: split s'
            else
              match split s' with
              | w :: ws => String c w :: ws
              | [] => [String c EmptyString]
              end
        end
  end.

(** The first run of characters that are not white space, and what
    follows it. *)
Fixpoint span_word (s : string) : string * string :=
  match s with
  | EmptyString => (EmptyString, EmptyString)
  | String c s' =>
      if is_space c then (EmptyString, s)
      else let '(w, r) := span_word s' in (String c w, r)
  end.

(** [s.split(maxsplit=1)]: at most the first word and the remainder from
    its first character that is not white space. *)
Definition split_maxsplit1 (s : string) : list string :=
  match lstrip s with
  | EmptyString => []
  | t =>
      let '(w, r) := span_word t in
      match lstrip r with
      | EmptyString => [w]
      | r' => [w; r']
      end
  end.

Definition digit_of (c : ascii) : option Z :=
  let n := nat_of_ascii c in
  if bool_decide (48 ≤ n ≤ 57)%nat then Some (Z.of_nat n - 48)%Z else None.

(** The digits of a base-10 literal; an underscore may only stand
    between two digits. *)
Fixpoint int_digits (acc : Z) (after_digit : bool) (s : string) : option Z :=
  match s with
  | EmptyString => if after_digit then Some acc else None
  | String c s' =>
      if decide (c = "_"%char) then
        if after_digit then int_digits acc false s' else None
      else
        match digit_of c with
        | Some d => int_digits (10 * acc + d)%Z true s'
        | None => None
        end
  end.

(** The white space [int(s)] skips around the literal: ASCII white
    space, and the characters above 127 that [isspace] holds of.  The
    separators 28 to 31 are white space for [strip] and [split], not
    for [int]. *)
Definition int_space (c : ascii) : bool :=
  bool_decide (nat_of_ascii c ∈ [9; 10; 11; 12; 13; 32; 133; 160]%nat).

Fixpoint int_lstrip (s : string) : string :=
  match s with
  | EmptyString => EmptyString
  | String c s' => if int_space c then int_lstrip s' else s
  end.

Fixpoint int_rstrip (s : string) : string :=
  match s with
  | EmptyString => EmptyString
  | String c s' =>
      match int_rstrip s' with
      | EmptyString => if int_space c then EmptyString else String c EmptyString
      | r => String c r
      end
  end.

(** The number of digits of a literal, underscores apart. *)
Fixpoint digit_count (s : string) : N :=
  match s with
  | EmptyString => 0%N
  | String c s' =>
      (match digit_of c with Some _ => 1 | None => 0 end + digit_count s')%N
  end.

(** [sys.get_int_max_str_digits()], as the interpreter starts. *)
Definition int_max_str_digits : N := 4300%N.

(** The literal after the sign: [None] for a malformed literal and for
    one with more digits than the interpreter converts. *)
Definition int_literal (t : string) : option Z :=
  if (digit_count t <=? int_max_str_digits)%N then int_digits 0 false t else None.

(** [int(s)]; [None] when it raises [ValueError]. *)
Definition py_int (s : string) : option Z :=
  match int_rstrip (int_lstrip s) with
  | String "+" t => int_literal t
  | String "-" t => Z.opp <$> int_literal t
  | t => int_literal t
  end.

(** *** The game model *)

Section loader.
(** The interpreter's [float] type and its conversion [float(s)], [None]
    when it raises [ValueError]. *)
Context {float : Type} (py_float : string → option float).

(** [Node], a node of the game tree, after [__post_init__]. *)
Record Node : Type := {
  path : string;
  node_type : string;
  player : option Z;
  actions : list string;
  action_probs : gmap string float;
  payoffs : gmap Z float
}.

(** [Infoset], an information set. *)
Record Infoset : Type := {
  name : string;
  infoset_nodes : list string
}.

Record Game : Type := {
  players : list Z;
  hist_to_infoset : gmap string string;
  infosets : gmap string Infoset;
  order : list string;
  nodes : gmap string Node
}.

(** [Game()] *)
Definition Game_init : Game :=
  {| players := []; hist_to_infoset := ∅; infosets := ∅; order := [];
     nodes := ∅ |}.

(** The [ValueError]s of [read_efg]: those of its own [raise]
    statements, whose message is [f"Line {line_num}: {detail}"], and
    those raised inside the conversions [float(arg)] and [int(arg)],
    whose message is the interpreter's ("could not convert string to
    float: ...", and "invalid literal for int() with base 10: ..." or
    "Exceeds the limit (4300 digits) for integer string conversion
    ..."). *)
Inductive exn : Type :=
| ValueError_line (line_num : nat) (detail : string)
| ValueError_float (arg : string)
| ValueError_int (arg : string).

(** The line number an error message starts with, if any. *)
Definition reported_line (e : exn) : option nat :=
  match e with
  | ValueError_line n _ => Some n
  | ValueError_float _ | ValueError_int _ => None
  end.

(** The text of the messages formatted by [read_efg] itself. *)
Definition message (line_num : nat) (detail : string) : string :=
  "Line " +:+ pretty line_num +:+ ": " +:+ detail.

(** Lines 100-105: the tokens [action=prob] of a chance node. *)
Fixpoint chance_actions (line_num : nat) (tokens : list string)
    (actions : list string) (action_probs : gmap string float)
  : exn + (list string * gmap string float) :=
  match tokens with
  | [] => inr (actions, action_probs)
  | action_prob :: tokens' =>
      match split_once "=" action_prob with
      | None => inl (ValueError_line line_num ("Invalid action format: " +:+ action_prob))
      | Some (action, prob_str) =>
          match py_float prob_str with
          | None => inl (ValueError_float prob_str)
          | Some p =>
              chance_actions line_num tokens' (actions ++ [action])
                (<[action := p]> action_probs)
          end
      end
  end.

(** Lines 120-126: the tokens [player=payoff] of a leaf. *)
Fixpoint leaf_payoffs (line_num : nat) (tokens : list string)
    (payoffs : gmap Z float) (players_set : gset Z)
  : exn + (gmap Z float * gset Z) :=
  match tokens with
  | [] => inr (payoffs, players_set)
  | player_payoff :: tokens' =>
      match split_once "=" player_payoff with
      | None => inl (ValueError_line line_num ("Invalid payoff format: " +:+ player_payoff))
      | Some (player_str, payoff_str) =>
          match py_int player_str with
          | None => inl (ValueError_int player_str)
          | Some player_num =>
              match py_float payoff_str with
              | None => inl (ValueError_float payoff_str)
              | Some v =>
                  leaf_payoffs line_num tokens' (<[player_num := v]> payoffs)
                    ({[player_num]} ∪ players_set)
              end
          end
      end
  end.

Definition append_order (node_path : string) (g : Game) : Game :=
  {| players := players g; hist_to_infoset := hist_to_infoset g;
     infosets := infosets g; order := order g ++ [node_path];
     nodes := nodes g |}.

Definition set_node (node_path : string) (node : Node) (g : Game) : Game :=
  {| players := players g; hist_to_infoset := hist_to_infoset g;
     infosets := infosets g; order := order g;
     nodes := <[node_path := node]> (nodes g) |}.

(** Lines 71-76: register an information set and map its histories to it. *)
Definition add_infoset (infoset_name : string) (node_paths : list string)
    (g : Game) : Game :=
  {| players := players g;
     hist_to_infoset :=
       foldl (λ m node_path, <[node_path := infoset_name]> m)
             (hist_to_infoset g) node_paths;
     infosets :=
       <[infoset_name := {| name := infoset_name; infoset_nodes := node_paths |}]>
         (infosets g);
     order := order g;
     nodes := nodes g |}.

Definition set_players (ps : list Z) (g : Game) : Game :=
  {| players := ps; hist_to_infoset := hist_to_infoset g;
     infosets := infosets g; order := order g; nodes := nodes g |}.

(** Lines 93-155: the description of a node after its path.  The state
    is [self] and the local [players_set]. *)
Definition read_node (line_num : nat) (node_path rest : string)
    (st : Game * gset Z) : outcome exn (Game * gset Z) :=
  let '(g, players_set) := st in
  if startswith "chance actions " rest then
    eval (chance_actions line_num (split (slice_from 15 rest)) [] ∅) st
      (λ '(actions, action_probs),
        Done (set_node node_path
                {| path := node_path; node_type := "chance"; player := None;
                   actions := actions; action_probs := action_probs;
                   payoffs := ∅ |} g, players_set))
  else if startswith "leaf payoffs " rest then
    eval (leaf_payoffs line_num (split (slice_from 13 rest)) ∅ players_set) st
      (λ '(payoffs, players_set'),
        Done (set_node node_path
                {| path := node_path; node_type := "leaf"; player := None;
                   actions := []; action_probs := ∅; payoffs := payoffs |} g,
              players_set'))
  else if startswith "player " rest then
    match split_once " actions " (slice_from 7 rest) with
    | None => Raised (ValueError_line line_num "Invalid player node format") st
    | Some (player_str, actions_str) =>
        match py_int player_str with
        | None => Raised (ValueError_int player_str) st
        | Some player_num =>
            Done (set_node node_path
                    {| path := node_path; node_type := "player";
                       player := Some player_num; actions := split actions_str;
                       action_probs := ∅; payoffs := ∅ |} g,
                  {[player_num]} ∪ players_set)
        end
    end
  else
    Raised (ValueError_line line_num ("Unknown node type in: " +:+ slice_to 50 rest)) st.

(** Lines 56-158, the body of the loop over the lines of the file. *)
Definition read_line (line_num : nat) (raw : string) (st : Game * gset Z)
  : outcome exn (Game * gset Z) :=
  let line := strip raw in
  if decide (line = EmptyString) then Done st
  else if startswith "infoset " line then
    match split_once " nodes " (slice_from 8 line) with
    | None => Raised (ValueError_line line_num "Invalid infoset format") st
    | Some (infoset_name, paths) =>
        Done (add_infoset infoset_name (split paths) st.1, st.2)
    end
  else if startswith "node " line then
    match split_maxsplit1 (slice_from 5 line) with
    | [node_path; rest] =>
        read_node line_num node_path rest (append_order node_path st.1, st.2)
    | _ =>
        Raised (ValueError_line line_num "Invalid format, expected path and node info") st
    end
  else
    Raised (ValueError_line line_num
              ("Expected line to start with 'node ' or 'infoset ', got: "
               +:+ slice_to 50 line)) st.

(** [for line_num, line in enumerate(f, line_num)] *)
Fixpoint read_lines (line_num : nat) (lines : list string) (st : Game * gset Z)
  : outcome exn (Game * gset Z) :=
  match lines with
  | [] => Done st
  | line :: lines' =>
      and_then (read_line line_num line st) (read_lines (S line_num) lines')
  end.

(** [Game.read_efg], on the lines of the file at [path].  The method
    returns nothing: its result is the state of [self], which keeps what
    was stored before an exception. *)
Definition read_efg (lines : list string) (self : Game) : outcome exn Game :=
  match read_lines 1 lines (self, ∅) with
  | Done (g, players_set) =>
      Done (set_players (merge_sort Z.le (elements players_set)) g)
  | Raised e (g, _) => Raised e g
  end.

End loader.

End parser.

(** ** [team_belief_dag.py]

    A belief node is an object with a [node_type] attribute, never equal
    to a tuple; the tables are filled by whoever owns the solver, so the
    theorems take them in an arbitrary state. *)

Module team_belief_dag.

Section solver.
Context {bnode action : Type}.
Context `{Countable bnode} `{Countable action}.

(** Keys of the tables [x], [x_prime] and [u]: a belief node, or the
    tuple [(node, action)]. *)
Inductive key : Type :=
| KNode (n : bnode)
| KSeq (n : bnode) (a : action).

#[export] Instance key_eq_dec : EqDecision key.
Proof. solve_decision. Defined.

Definition key_to_sum (k : key) : bnode + bnode * action :=
  match k with KNode n => inl n | KSeq n a => inr (n, a) end.

Definition key_of_sum (k : bnode + bnode * action) : key :=
  match k with inl n => KNode n | inr (n, a) => KSeq n a end.

#[export] Instance key_countable : Countable key.
Proof. apply (inj_countable' key_to_sum key_of_sum). by intros []. Defined.

(** What [DagRegMin] reads of [self.dag].  [child_of[node]] is iterated
    for the actions of the node; [parent_of[node]] lists the keys whose
    reach flows into the node. *)
Record Dag : Type := {
  nodes : list bnode;
  active_nodes : list bnode;
  root : bnode;
  child_of : gmap bnode (list action);
  parent_of : gmap bnode (list key);
  node_type : bnode → string
}.

(** A value stored in [x]: a number, or the empty dictionary the first
    loop of [next_strategy] binds [x[node]] to. *)
Inductive xval : Type :=
| XNum (q : Qc)
| XDict.

(** The fields of a [DagRegMin] object other than [dag]. *)
Record DagRegMin : Type := {
  regret : gmap bnode (gmap action Qc);
  x : gmap key xval;
  x_prime : gmap key (gmap action Qc)
}.

Inductive exn : Type :=
| KeyError_key (k : key)
| KeyError_action (a : action)
| TypeError.

(** The name of the class of the exception object. *)
Definition exn_class (e : exn) : string :=
  match e with
  | KeyError_key _ | KeyError_action _ => "KeyError"
  | TypeError => "TypeError"
  end.

(** [DagRegMin.__init__]: the three tables start empty. *)
Definition DagRegMin_init : DagRegMin :=
  {| regret := ∅; x := ∅; x_prime := ∅ |}.

Definition set_x (k : key) (v : xval) (s : DagRegMin) : DagRegMin :=
  {| regret := regret s; x := <[k := v]> (x s); x_prime := x_prime s |}.

Definition set_x_prime (k : key) (d : gmap action Qc) (s : DagRegMin) : DagRegMin :=
  {| regret := regret s; x := x s; x_prime := <[k := d]> (x_prime s) |}.

Definition set_regret (n : bnode) (d : gmap action Qc) (s : DagRegMin) : DagRegMin :=
  {| regret := <[n := d]> (regret s); x := x s; x_prime := x_prime s |}.

(** [table[k]] *)
Definition getitem {V} (m : gmap key V) (k : key) : exn + V :=
  match m !! k with
  | None => inl (KeyError_key k)
  | Some v => inr v
  end.

(** [self.dag.child_of[node]] and [self.dag.parent_of[node]] *)
Definition getnode {V} (m : gmap bnode V) (n : bnode) : exn + V :=
  match m !! n with
  | None => inl (KeyError_key (KNode n))
  | Some v => inr v
  end.

(** [d[action]] *)
Definition getaction (d : gmap action Qc) (a : action) : exn + Qc :=
  match d !! a with
  | None => inl (KeyError_action a)
  | Some v => inr v
  end.

(** [self.regret[node][action]] *)
Definition get_regret (s : DagRegMin) (n : bnode) (a : action) : exn + Qc :=
  match getnode (regret s) n with
  | inl e => inl e
  | inr d => getaction d a
  end.

(** [self.x_prime[node][action]] *)
Definition get_x_prime (s : DagRegMin) (n : bnode) (a : action) : exn + Qc :=
  match getitem (x_prime s) (KNode n) with
  | inl e => inl e
  | inr d => getaction d a
  end.

(** A number read from [x]; a dictionary in an arithmetic position is a
    [TypeError]. *)
Definition get_x_num (s : DagRegMin) (k : key) : exn + Qc :=
  match getitem (x s) k with
  | inl e => inl e
  | inr (XNum v) => inr v
  | inr XDict => inl TypeError
  end.

(** [self.x_prime[node][action] = v] *)
Definition setitem_x_prime (n : bnode) (a : action) (v : Qc) (s : DagRegMin)
  : outcome exn DagRegMin :=
  eval (getitem (x_prime s) (KNode n)) s (λ d,
    Done (set_x_prime (KNode n) (<[a := v]> d) s)).

(** Lines 34-36, the body of the inner loop of the first pass. *)
Definition reset_action (node : bnode) (a : action) (s : DagRegMin)
  : outcome exn DagRegMin :=
  setitem_x_prime node a 1 (set_x (KNode node) (XNum 1) s).

(** Lines 33-36, the body of the first loop. *)
Definition reset_node (dag : Dag) (node : bnode) (s : DagRegMin)
  : outcome exn DagRegMin :=
  let s1 := set_x_prime (KNode node) ∅ (set_x (KNode node) XDict s) in
  eval (getnode (child_of dag) node) s1 (λ acts,
    for_each (reset_action node) acts s1).

(** Line 42: [S], the sum of the positive parts of the regrets. *)
Definition positive_regret_sum (s : DagRegMin) (node : bnode) (acts : list action)
  : exn + Qc :=
  sum_from (λ a, match get_regret s node a with
                 | inl e => inl e
                 | inr r => inr (py.max r 0)
                 end) 0 acts.

(** Lines 45-49: the right-hand side assigned to [x_prime[node][action]]. *)
Definition matched_probability (dag : Dag) (s : DagRegMin) (node : bnode)
    (S : Qc) (a : action) : exn + Qc :=
  if decide (S = 0) then
    match getnode (child_of dag) node with
    | inl e => inl e
    | inr acts => inr (1 / len acts)
    end
  else
    match get_regret s node a with
    | inl e => inl e
    | inr r => inr (py.max (r - S) 0 / S)
    end.

(** Lines 45-51, the body of the loop over the actions of an active node. *)
Definition strategy_action (dag : Dag) (node : bnode) (S : Qc) (a : action)
    (s : DagRegMin) : outcome exn DagRegMin :=
  eval (matched_probability dag s node S a) s (λ p,
    and_then (setitem_x_prime node a p s) (λ s1,
      eval (get_x_prime s1 node a) s1 (λ p',
        eval (get_x_num s1 (KNode node)) s1 (λ v,
          Done (set_x (KSeq node a) (XNum (p' * v)) s1))))).

(** Lines 39-40: the reach of a node other than the root. *)
Definition reach_node (dag : Dag) (node : bnode) (s : DagRegMin)
  : outcome exn DagRegMin :=
  if decide (node ≠ root dag) then
    eval (getnode (parent_of dag) node) s (λ parents,
      eval (sum_from (get_x_num s) 0 parents) s (λ v,
        Done (set_x (KNode node) (XNum v) s)))
  else Done s.

(** Lines 39-51, the body of the second loop. *)
Definition strategy_node (dag : Dag) (node : bnode) (s : DagRegMin)
  : outcome exn DagRegMin :=
  and_then (reach_node dag node s) (λ s1,
    eval (getnode (child_of dag) node) s1 (λ acts,
      eval (positive_regret_sum s1 node acts) s1 (λ S,
        for_each (strategy_action dag node S) acts s1))).

(** [DagRegMin.next_strategy]; the value returned is the table [x] of
    the final state. *)
Definition next_strategy (dag : Dag) (s : DagRegMin) : outcome exn DagRegMin :=
  and_then (for_each (reset_node dag) (nodes dag) s)
           (for_each (strategy_node dag) (active_nodes dag)).

(** The local table [u] of [observe_utility], next to the object. *)
Record backward : Type := {
  self : DagRegMin;
  u : gmap key Qc
}.

Definition set_u (k : key) (v : Qc) (b : backward) : backward :=
  {| self := self b; u := <[k := v]> (u b) |}.

(** Lines 57-60: [u] holds 0 for every node whose type is not
    ["terminal"]. *)
Definition init_u (dag : Dag) : gmap key Qc :=
  foldl (λ u node,
           if decide (node_type dag node ≠ "terminal")
           then <[KNode node := 0]> u else u)
        ∅ (nodes dag).

(** Line 63, one term of the sum:
    [u[(node,action)] * self.x_prime[(node,action)]].  Both tables are
    indexed by the tuple; an entry of [x_prime] is a dictionary, which a
    number cannot be multiplied with. *)
Definition weighted_child (b : backward) (node : bnode) (a : action) : exn + Qc :=
  match getitem (u b) (KSeq node a) with
  | inl e => inl e
  | inr _ =>
      match getitem (x_prime (self b)) (KSeq node a) with
      | inl e => inl e
      | inr _ => inl TypeError
      end
  end.

(** Line 63: [u[node] += sum(...)]; the target is read before the sum
    is evaluated. *)
Definition node_utility (dag : Dag) (node : bnode) (b : backward)
  : outcome exn backward :=
  eval (getitem (u b) (KNode node)) b (λ old,
    eval (getnode (child_of dag) node) b (λ acts,
      eval (sum_from (weighted_child b node) 0 acts) b (λ total,
        Done (set_u (KNode node) (old + total) b)))).

(** Line 65: [self.regret[node][action] += u[node] - u[(node,action)]]. *)
Definition regret_update (node : bnode) (a : action) (b : backward)
  : outcome exn backward :=
  eval (getnode (regret (self b)) node) b (λ d,
    eval (getaction d a) b (λ old,
      eval (getitem (u b) (KNode node)) b (λ un,
        eval (getitem (u b) (KSeq node a)) b (λ ua,
          Done {| self := set_regret node (<[a := old + (un - ua)]> d) (self b);
                  u := u b |})))).

(** Line 68: [u[parent] += u[node]]. *)
Definition propagate (node : bnode) (parent : key) (b : backward)
  : outcome exn backward :=
  eval (getitem (u b) parent) b (λ old,
    eval (getitem (u b) (KNode node)) b (λ un,
      Done (set_u parent (old + un) b))).

(** Lines 63-68, the body of the loop over the active nodes. *)
Definition observe_node (dag : Dag) (node : bnode) (b : backward)
  : outcome exn backward :=
  and_then (node_utility dag node b) (λ b1,
    eval (getnode (child_of dag) node) b1 (λ acts,
      and_then (for_each (regret_update node) acts b1) (λ b2,
        eval (getnode (parent_of dag) node) b2 (λ parents,
          for_each (propagate node) parents b2)))).

(** [DagRegMin.observe_utility].  The argument [gradient] is not read.
    The loop runs over [active_nodes] from its first element to its
    last, as the loop of [next_strategy] does. *)
Definition observe_utility (dag : Dag) (gradient : gmap key Qc) (s : DagRegMin)
  : outcome exn backward :=
  for_each (observe_node dag) (active_nodes dag) {| self := s; u := init_u dag |}.

End solver.

(** What a call produces: the value it returns, [None] for Python's
    [None], or the class of the exception it raises. *)
Inductive call (A : Type) : Type :=
| Returns (v : option A)
| Raises (class : string).
Arguments Returns {A} v.
Arguments Raises {A} class.

Section builder.
Context {float : Type}.

(** [TeamBeliefDag.__init__]: the fields of a new object.  The class
    has neither [nodes] nor [root]. *)
Record TeamBeliefDag : Type := {
  game : parser.Game (float := float);
  team_players : list Z;
  tb_active_nodes : list string;
  inactive_nodes : list string;
  tb_child_of : gmap (string * string) string;
  tb_parent_of : gmap string string
}.

Definition TeamBeliefDag_init (game : parser.Game) (team_players : list Z)
  : TeamBeliefDag :=
  {| game := game; team_players := team_players; tb_active_nodes := [];
     inactive_nodes := []; tb_child_of := ∅; tb_parent_of := ∅ |}.

(** [TeamBeliefDag.efg_to_tbdag]: the body is [pass]. *)
Definition efg_to_tbdag (game : parser.Game (float := float))
    (team_players : list Z) : call TeamBeliefDag :=
  Returns None.

(** The specification's condition on the argument: [team_players]
    names two distinct players of [game.players]. *)
Definition two_subset (game : parser.Game (float := float))
    (team_players : list Z) : bool :=
  bool_decide (length team_players = 2%nat ∧ NoDup team_players
               ∧ Forall (λ p, p ∈ parser.players game) team_players).

End builder.

Section objects.
Context {bnode action : Type} `{Countable bnode} `{Countable action}.
Context {float : Type}.
Local Abbreviation Dag := (Dag (bnode := bnode) (action := action)).
Local Abbreviation DagRegMin := (DagRegMin (bnode := bnode) (action := action)).
Local Abbreviation key := (key (bnode := bnode) (action := action)).
Local Abbreviation backward := (backward (bnode := bnode) (action := action)).
Local Abbreviation exn := (exn (bnode := bnode) (action := action)).

(** What [self.dag] is bound to.  [DagRegMin] reads the attributes
    [nodes], [active_nodes], [root], [child_of] and [parent_of] of it
    and the attribute [node_type] of its nodes: either the object has
    them ([Duck]), or it is an instance of the class [TeamBeliefDag] as
    its [__init__] leaves it ([Built]), which has neither [nodes] nor
    [root]. *)
Inductive dag_object : Type :=
| Duck (dag : Dag)
| Built (tb : TeamBeliefDag (float := float)).

(** The exceptions of a method of [DagRegMin] on either kind of object:
    a missing attribute, or the exception of a table lookup. *)
Inductive error : Type :=
| AttributeError (class attribute : string)
| Lookup (e : exn).

(** The name of the class of the exception object. *)
Definition error_class (e : error) : string :=
  match e with
  | AttributeError _ _ => "AttributeError"
  | Lookup e => exn_class e
  end.

Definition lookup_errors {S} (o : outcome exn S) : outcome error S :=
  match o with
  | Done s => Done s
  | Raised e s => Raised (Lookup e) s
  end.

(** [DagRegMin.next_strategy] on either kind of object.  Line 32 reads
    [self.dag.nodes] before anything is assigned. *)
Definition next_strategy_on (o : dag_object) (s : DagRegMin)
  : outcome error DagRegMin :=
  match o with
  | Duck dag => lookup_errors (next_strategy dag s)
  | Built _ => Raised (AttributeError "TeamBeliefDag" "nodes") s
  end.

(** [DagRegMin.observe_utility] on either kind of object.  Line 57
    binds [u] to an empty dictionary, line 58 reads [self.dag.nodes]. *)
Definition observe_utility_on (o : dag_object) (gradient : gmap key Qc)
    (s : DagRegMin) : outcome error backward :=
  match o with
  | Duck dag => lookup_errors (observe_utility dag gradient s)
  | Built _ =>
      Raised (AttributeError "TeamBeliefDag" "nodes") {| self := s; u := ∅ |}
  end.

End objects.

End team_belief_dag.

(** ** The properties the specification states, in its words *)

Module spec.
Import team_belief_dag.

Section solver_properties.
Context {bnode action : Type} `{Countable bnode} `{Countable action}.
Local Abbreviation Dag := (Dag (bnode := bnode) (action := action)).
Local Abbreviation DagRegMin := (DagRegMin (bnode := bnode) (action := action)).
Local Abbreviation key := (key (bnode := bnode) (action := action)).

(** The regret-matching projection of the specification: [1/|actions|]
    when [S = 0], otherwise [max(regret, 0) / S]. *)
Definition regret_matching (S : Qc) (count : Qc) (r : Qc) : Qc :=
  if decide (S = 0) then 1 / count else py.max r 0 / S.

(** One term of the reach of the specification,
    [x[parent] * x_prime[parent][action]], for an entry
    [(parent, action)] of [parent_of]. *)
Definition edge_reach (s : DagRegMin) (k : key) : exn + Qc :=
  match k with
  | KNode _ => inl TypeError
  | KSeq parent a =>
      match get_x_num s (KNode parent), get_x_prime s parent a with
      | inr v, inr p => inr (v * p)
      | inl e, _ => inl e
      | _, inl e => inl e
      end
  end.

(** The reach of the specification: the sum of [edge_reach] over
    [parent_of[node]]. *)
Definition reach (s : DagRegMin) (parents : list key) : exn + Qc :=
  sum_from (edge_reach s) 0 parents.

(** The total local probability of a node, the sum of
    [x_prime[node][a]] over its actions. *)
Definition local_mass (s : DagRegMin) (node : bnode) (acts : list action)
  : exn + Qc :=
  sum_from (get_x_prime s node) 0 acts.

(** Every entry of [parent_of[node]] is a pair [(parent, action)] whose
    parent is processed before the node and has the action. *)
Definition parents_first (dag : Dag) (earlier : list bnode) (parents : list key)
  : Prop :=
  ∀ k, k ∈ parents →
    ∃ p a acts, k = KSeq p a ∧ p ∈ earlier
                ∧ child_of dag !! p = Some acts ∧ a ∈ acts.

End solver_properties.
End spec.

(** ** What the loops of the solver change and keep *)

Module effects.
Import team_belief_dag.

Section forward_effects.
Context {bnode action : Type} `{Countable bnode} `{Countable action}.
Local Abbreviation Dag := (Dag (bnode := bnode) (action := action)).
Local Abbreviation DagRegMin := (DagRegMin (bnode := bnode) (action := action)).
Local Abbreviation key := (key (bnode := bnode) (action := action)).
Implicit Types (dag : Dag) (s : DagRegMin) (k : key) (n node : bnode)
  (a : action) (acts : list action) (d : gmap action Qc).

(** What a successful [reset_node] leaves: the regrets and every other
    key untouched, [x_prime[node]] holding 1 for each action, [x[node]]
    the number 1 or, without an action, the empty dictionary. *)
Definition reset_to (dag : Dag) node s s' : Prop :=
  regret s' = regret s
  ∧ (∀ k, k ≠ KNode node →
       x s' !! k = x s !! k ∧ x_prime s' !! k = x_prime s !! k)
  ∧ ∃ acts d,
      child_of dag !! node = Some acts
      ∧ x s' !! KNode node = Some (if acts is [] then XDict else XNum 1)
      ∧ x_prime s' !! KNode node = Some d
      ∧ ∀ a, d !! a = if decide (a ∈ acts) then Some 1 else None.

(** What a successful [strategy_node] leaves behind. *)
Definition node_step (dag : Dag) n s s' : Prop :=
  regret s' = regret s
  ∧ (∀ k, k ≠ KNode n → (∀ a, k ≠ KSeq n a) → x s' !! k = x s !! k)
  ∧ (∀ k, k ≠ KNode n → x_prime s' !! k = x_prime s !! k)
  ∧ (n ≠ root dag →
       ∃ parents v,
         parent_of dag !! n = Some parents
         ∧ sum_from (get_x_num s) 0 parents = inr v
         ∧ x s' !! KNode n = Some (XNum v))
  ∧ (n = root dag → x s' !! KNode n = x s !! KNode n)
  ∧ ∃ acts S,
      child_of dag !! n = Some acts
      ∧ positive_regret_sum s n acts = inr S
      ∧ ∀ a, a ∈ acts →
          ∃ p v,
            matched_probability dag s n S a = inr p
            ∧ get_x_prime s' n a = inr p
            ∧ x s' !! KNode n = Some (XNum v)
            ∧ x s' !! KSeq n a = Some (XNum (p * v)).

(** What the second loop leaves untouched, whatever the list of nodes. *)
Definition loop_frame (dag : Dag) (l : list bnode) s s' : Prop :=
  regret s' = regret s
  ∧ (∀ k, (∀ m, m ∈ l → k ≠ KNode m ∧ ∀ a, k ≠ KSeq m a) → x s' !! k = x s !! k)
  ∧ (∀ k, (∀ m, m ∈ l → k ≠ KNode m) → x_prime s' !! k = x_prime s !! k)
  ∧ x s' !! KNode (root dag) = x s !! KNode (root dag).

(** The keys of the table [u] of [observe_utility] are nodes, never
    tuples. *)
Definition node_keys (u : gmap key Qc) : Prop :=
  ∀ k, is_Some (u !! k) → ∃ n, k = KNode n.

End forward_effects.
End effects.

(** ** Inputs the theorems are evaluated on *)

Module examples.
Import team_belief_dag.

Local Abbreviation Dag := (Dag (bnode := string) (action := string)).
Local Abbreviation DagRegMin := (DagRegMin (bnode := string) (action := string)).

Definition type_of (terminal chance : list string) (n : string) : string :=
  if decide (n ∈ terminal) then "terminal"
  else if decide (n ∈ chance) then "chance" else "decision".

(** A root [r] with the actions [a] and [b], both leading to the
    terminal node [t]. *)
Definition fork : Dag :=
  {| nodes := ["r"; "t"];
     active_nodes := ["r"];
     root := "r";
     child_of := {[ "r" := ["a"; "b"]; "t" := [] ]};
     parent_of := {[ "t" := [KSeq "r" "a"; KSeq "r" "b"] ]};
     node_type := type_of ["t"] [] |}.

(** A solver on [fork] whose regrets were set to 1 for [a], 0 for [b]. *)
Definition fork_regret_1_0 : DagRegMin :=
  {| regret := {[ "r" := {[ "a" := 1; "b" := 0 ]} ]}; x := ∅; x_prime := ∅ |}.

(** A solver on [fork] whose regrets are 0. *)
Definition fork_regret_0_0 : DagRegMin :=
  {| regret := {[ "r" := {[ "a" := 0; "b" := 0 ]} ]}; x := ∅; x_prime := ∅ |}.

(** Two decisions in a row: [r -a-> c -b-> t], listed parents first. *)
Definition chain : Dag :=
  {| nodes := ["r"; "c"; "t"];
     active_nodes := ["r"; "c"];
     root := "r";
     child_of := {[ "r" := ["a"]; "c" := ["b"]; "t" := [] ]};
     parent_of := {[ "c" := [KSeq "r" "a"]; "t" := [KSeq "c" "b"] ]};
     node_type := type_of ["t"] [] |}.

Definition chain_regret_0 : DagRegMin :=
  {| regret := {[ "r" := {[ "a" := 0 ]}; "c" := {[ "b" := 0 ]} ]};
     x := ∅; x_prime := ∅ |}.

(** A decision [r] followed by a chance node [c] with the outcomes [H]
    and [T]; the chance node is not an active node. *)
Definition coin : Dag :=
  {| nodes := ["r"; "c"];
     active_nodes := ["r"];
     root := "r";
     child_of := {[ "r" := ["a"]; "c" := ["H"; "T"] ]};
     parent_of := {[ "c" := [KSeq "r" "a"] ]};
     node_type := type_of [] ["c"] |}.

Definition coin_regret_0 : DagRegMin :=
  {| regret := {[ "r" := {[ "a" := 0 ]} ]}; x := ∅; x_prime := ∅ |}.

(** The probabilities the game declares for the chance node of [coin]. *)
Definition coin_probabilities : gmap string Qc :=
  {[ "H" := 1 / 2; "T" := 1 / 2 ]}.

(** A DAG without any node. *)
Definition empty_dag : Dag :=
  {| nodes := []; active_nodes := []; root := "r"; child_of := ∅;
     parent_of := ∅; node_type := type_of [] [] |}.

(** A utility of 1 for the terminal node [t]. *)
Definition gradient_t : gmap (key (bnode := string) (action := string)) Qc :=
  {[ KNode "t" := 1 ]}.

(** A game with the players 1, 2 and 3 and no node. *)
Definition three_players : parser.Game (float := Qc) :=
  parser.set_players [1; 2; 3]%Z parser.Game_init.

(** [float(s)] for the strings of decimal digits, the only literals the
    inputs below contain that [float] accepts. *)
Definition float_of_digits (s : string) : option Qc :=
  Qc_of_Z <$> parser.int_digits 0 false s.

(** A file that declares the node path [r] twice. *)
Definition duplicate_path : list string :=
  ["node r player 1 actions a b"; "node r player 2 actions c"].

(** A file whose chance probability is not a number. *)
Definition bad_probability : list string :=
  ["node r chance actions a=x"].

(** A file whose payoff is declared for a player that is not a number. *)
Definition bad_player : list string :=
  ["node r leaf payoffs x=1"].

End examples.

(** ** Shapes of the loaded game *)

Module shapes.
Import parser.

(** No character of the string is white space. *)
Fixpoint no_space (s : string) : bool :=
  match s with
  | EmptyString => true
  | String c s' => negb (is_space c) && no_space s'
  end.

(** A word: one character or more, none of them white space. *)
Definition is_word (s : string) : Prop :=
  s ≠ EmptyString ∧ no_space s = true.

(** A line that [read_efg] skips. *)
Definition blank (raw : string) : Prop := strip raw = EmptyString.

(** The path of a node line that has a path and a description: the
    first word after the prefix [node ].  [read_efg] appends it to
    [order] before it reads the description. *)
Definition node_line_path (raw : string) : option string :=
  let line := strip raw in
  if startswith "infoset " line then None
  else if startswith "node " line then
    match split_maxsplit1 (slice_from 5 line) with
    | [node_path; _] => Some node_path
    | _ => None
    end
  else None.

Section nodes.
Context {float : Type}.
Local Abbreviation Node := (Node (float := float)).

(** The player identifiers a node mentions: its owner and the keys of
    its payoffs. *)
Definition node_players (node : Node) : gset Z :=
  match player node with
  | Some p => {[p]}
  | None => ∅
  end ∪ dom (payoffs node).

(** The three forms of node [read_efg] stores under a path. *)
Definition node_form (node_path : string) (node : Node) : Prop :=
  path node = node_path
  ∧ ((node_type node = "chance" ∧ player node = None ∧ payoffs node = ∅
      ∧ dom (action_probs node) = list_to_set (actions node))
     ∨ (node_type node = "leaf" ∧ player node = None ∧ actions node = []
        ∧ action_probs node = ∅)
     ∨ (node_type node = "player" ∧ is_Some (player node)
        ∧ action_probs node = ∅ ∧ payoffs node = ∅
        ∧ Forall is_word (actions node))).

End nodes.
Section games.
Context {float : Type}.
Local Abbreviation Game := (Game (float := float)).

(** The two tables of information sets agree: a history is mapped to a
    registered information set, and a registered information set is
    stored under its own name with every history of it mapped. *)
Definition infoset_index (g : Game) : Prop :=
  (∀ node_path infoset_name,
     hist_to_infoset g !! node_path = Some infoset_name →
     is_Some (infosets g !! infoset_name))
  ∧ (∀ infoset_name infoset,
       infosets g !! infoset_name = Some infoset →
       name infoset = infoset_name
       ∧ ∀ node_path, node_path ∈ infoset_nodes infoset →
           is_Some (hist_to_infoset g !! node_path)).

End games.
End shapes.

(** ** More inputs: files for the loader, states for the solver *)

Module cases.
Import team_belief_dag.

(** A coin toss seen by player 1, who bets or folds; one leaf. *)
Definition coin_game : list string :=
  ["infoset I1 nodes /C:H /C:T";
   "";
   "node / chance actions H=1 T=1";
   "node /C:H player 1 actions bet fold";
   "node /C:T player 1 actions bet fold";
   "node /C:H/P1:bet leaf payoffs 1=2 2=0"].

(** The leaves after tails, for a second call of [read_efg]. *)
Definition coin_game_tails : list string :=
  ["node /C:T/P1:bet leaf payoffs 1=0"].

(** A file whose third line is not a directive. *)
Definition coin_game_broken : list string :=
  ["node / chance actions H=1 T=1";
   "   ";
   "nodes /C:H player 1 actions bet fold"].

(** A file whose second line is a node line without a known type. *)
Definition coin_game_unknown_type : list string :=
  ["node / chance actions H=1 T=1";
   "node /C:H decision 1 actions bet fold"].

(** The DAG [examples.fork] with numbers for names: the root 1 with the
    actions 1 and 2, both leading to the terminal node 2. *)
Definition fork : Dag (bnode := positive) (action := positive) :=
  {| nodes := [1; 2]%positive;
     active_nodes := [1%positive];
     root := 1%positive;
     child_of := {[ 1%positive := [1; 2]%positive; 2%positive := [] ]};
     parent_of := {[ 2%positive := [KSeq 1%positive 1%positive;
                                     KSeq 1%positive 2%positive] ]};
     node_type := λ n, if decide (n = 2%positive) then "terminal" else "decision" |}.

(** A solver on [fork] without a positive regret. *)
Definition no_regret : DagRegMin (bnode := positive) (action := positive) :=
  {| regret := {[ 1%positive := {[ 1%positive := 0; 2%positive := -1 ]} ]};
     x := ∅; x_prime := ∅ |}.

(** The same regrets after some other use, which left entries in [x]
    and [x_prime]. *)
Definition no_regret_used : DagRegMin (bnode := positive) (action := positive) :=
  {| regret := regret no_regret;
     x := {[ KNode 1%positive := XNum 2; KSeq 1%positive 1%positive := XDict ]};
     x_prime := {[ KNode 1%positive := {[ 1%positive := 2 ]} ]} |}.

(** A single decision node without an action. *)
Definition lone : Dag (bnode := positive) (action := positive) :=
  {| nodes := [1%positive];
     active_nodes := [1%positive];
     root := 1%positive;
     child_of := {[ 1%positive := [] ]};
     parent_of := {[ 1%positive := [] ]};
     node_type := λ _, "decision" |}.

(** Two decisions in a row, listed parents first: the root 1, its child
    2 and the terminal node 3, each decision with the one action 1. *)
Definition chain : Dag (bnode := positive) (action := positive) :=
  {| nodes := [1; 2; 3]%positive;
     active_nodes := [1; 2]%positive;
     root := 1%positive;
     child_of := {[ 1%positive := [1%positive]; 2%positive := [1%positive];
                    3%positive := [] ]};
     parent_of := {[ 2%positive := [KSeq 1%positive 1%positive];
                     3%positive := [KSeq 2%positive 1%positive] ]};
     node_type := λ n, if decide (n = 3%positive) then "terminal" else "decision" |}.

Definition chain_no_regret : DagRegMin (bnode := positive) (action := positive) :=
  {| regret := {[ 1%positive := {[ 1%positive := 0 ]};
                  2%positive := {[ 1%positive := 0 ]} ]};
     x := ∅; x_prime := ∅ |}.

(** A decision below a chance node: the root 1, the chance node 2 with
    the outcomes 1 and 2, which is not an active node, and the decision
    3 reached by the outcome 1. *)
Definition below_chance : Dag (bnode := positive) (action := positive) :=
  {| nodes := [1; 2; 3]%positive;
     active_nodes := [1; 3]%positive;
     root := 1%positive;
     child_of := {[ 1%positive := [1%positive]; 2%positive := [1; 2]%positive;
                    3%positive := [1%positive] ]};
     parent_of := {[ 2%positive := [KSeq 1%positive 1%positive];
                     3%positive := [KSeq 2%positive 1%positive] ]};
     node_type := λ n, if decide (n = 2%positive) then "chance" else "decision" |}.

Definition below_chance_no_regret
  : DagRegMin (bnode := positive) (action := positive) :=
  {| regret := {[ 1%positive := {[ 1%positive := 0 ]};
                  3%positive := {[ 1%positive := 0 ]} ]};
     x := ∅; x_prime := ∅ |}.

(** A DAG whose active node 2 has no entry in [child_of]. *)
Definition missing_child : Dag (bnode := positive) (action := positive) :=
  {| nodes := [1; 2]%positive;
     active_nodes := [2%positive];
     root := 1%positive;
     child_of := {[ 1%positive := [1%positive] ]};
     parent_of := {[ 2%positive := [KSeq 1%positive 1%positive] ]};
     node_type := λ _, "decision" |}.

(** A DAG without any node. *)
Definition no_node : Dag (bnode := positive) (action := positive) :=
  {| nodes := []; active_nodes := []; root := 1%positive; child_of := ∅;
     parent_of := ∅; node_type := λ _, "decision" |}.

(** The object [TeamBeliefDag(game, [1, 2])] for a game with the
    players 1, 2 and 3. *)
Definition built : dag_object (bnode := positive) (action := positive) :=
  Built (TeamBeliefDag_init examples.three_players [1; 2]%Z).

End cases.

(** * Properties of the embedded code *)

(** ** Loops and sums *)

Section control_facts.
Context {E S A : Type}.
Implicit Types (body : A → S → outcome E S) (l : list A) (s : S).

Lemma for_each_app body l1 l2 s :
  for_each body (l1 ++ l2) s = and_then (for_each body l1 s) (for_each body l2).
Proof.
  revert s. induction l1 as [|a l1 IH]; intros s; simpl; [done|].
  destruct (body a s) as [s1|e s1]; simpl; [apply IH | done].
Qed.

Lemma and_then_done (o : outcome E S) (k : S → outcome E S) s' :
  and_then o k = Done s' → ∃ s1, o = Done s1 ∧ k s1 = Done s'.
Proof. destruct o as [s1|e s1]; simpl; [eauto | done]. Qed.

Lemma eval_done {B} (r : E + B) s (k : B → outcome E S) s' :
  eval r s k = Done s' → ∃ b, r = inr b ∧ k b = Done s'.
Proof. destruct r as [e|b]; simpl; [done | eauto]. Qed.

Lemma for_each_split body l1 a l2 s s' :
  for_each body (l1 ++ a :: l2) s = Done s' →
  ∃ sa sb, for_each body l1 s = Done sa ∧ body a sa = Done sb
           ∧ for_each body l2 sb = Done s'.
Proof.
  rewrite for_each_app. intros (sa & H1 & H2)%and_then_done.
  simpl in H2. apply and_then_done in H2 as (sb & H2 & H3). eauto.
Qed.

(** A property of pairs of states that every successful iteration
    establishes, and that composes, holds of a successful loop. *)
Lemma for_each_rel (R : S → S → Prop) body l s s' :
  (∀ s, R s s) →
  (∀ s1 s2 s3, R s1 s2 → R s2 s3 → R s1 s3) →
  (∀ a s1 s2, a ∈ l → body a s1 = Done s2 → R s1 s2) →
  for_each body l s = Done s' → R s s'.
Proof.
  intros Hrefl Htrans. revert s. induction l as [|a l IH]; intros s Hbody Hrun.
  - simpl in Hrun. injection Hrun as <-. apply Hrefl.
  - simpl in Hrun. apply and_then_done in Hrun as (s1 & Ha & Hl).
    eapply Htrans; [eapply Hbody; [left | done] |].
    apply IH; [|done]. intros b t1 t2 Hb. apply Hbody. by right.
Qed.

End control_facts.

Import team_belief_dag effects.

(** ** The forward pass, [next_strategy] *)

Section forward_facts.
Context {bnode action : Type} `{Countable bnode} `{Countable action}.
Local Abbreviation Dag := (Dag (bnode := bnode) (action := action)).
Local Abbreviation DagRegMin := (DagRegMin (bnode := bnode) (action := action)).
Local Abbreviation key := (key (bnode := bnode) (action := action)).
Implicit Types (dag : Dag) (s : DagRegMin) (k : key) (n node : bnode)
  (a : action) (acts : list action) (d : gmap action Qc).

(** *** The first loop *)

Lemma reset_actions_spec node acts : ∀ s d,
  x_prime s !! KNode node = Some d →
  ∃ s' d',
    for_each (reset_action node) acts s = Done s'
    ∧ regret s' = regret s
    ∧ (∀ k, k ≠ KNode node →
         x s' !! k = x s !! k ∧ x_prime s' !! k = x_prime s !! k)
    ∧ x s' !! KNode node
      = (if acts is [] then x s !! KNode node else Some (XNum 1))
    ∧ x_prime s' !! KNode node = Some d'
    ∧ ∀ a, d' !! a = if decide (a ∈ acts) then Some 1 else d !! a.
Proof.
  induction acts as [|a0 acts IH]; intros s d Hd.
  - exists s, d. by repeat split.
  - simpl. unfold reset_action at 1, setitem_x_prime, getitem. simpl.
    rewrite Hd. simpl.
    set (s1 := set_x_prime _ _ _).
    destruct (IH s1 (<[a0 := 1]> d)) as (s' & d' & Hrun & Hreg & Hframe & Hx & Hxp & Hd').
    { subst s1. simpl. by rewrite lookup_insert_eq. }
    exists s', d'. split; [done|]. split; [by rewrite Hreg|].
    split; [|split; [|split; [done|]]].
    + intros k Hk. destruct (Hframe k Hk) as [-> ->]. subst s1. simpl.
      by rewrite !lookup_insert_ne.
    + rewrite Hx. subst s1. simpl. rewrite lookup_insert_eq. by destruct acts.
    + intros a. rewrite Hd'. destruct (decide (a = a0)) as [->|Hne].
      * rewrite lookup_insert_eq.
        rewrite (decide_True (P := a0 ∈ a0 :: acts)) by left. by case_decide.
      * rewrite lookup_insert_ne by done.
        destruct (decide (a ∈ acts)) as [Hin|Hin].
        -- rewrite decide_True; [done | by right].
        -- rewrite decide_False; [done | by intros [?|?]%elem_of_cons].
Qed.

Lemma reset_node_spec dag node s s' :
  reset_node dag node s = Done s' → reset_to dag node s s'.
Proof.
  unfold reset_node, getnode. intros Hrun.
  destruct (child_of dag !! node) as [acts|] eqn:Hacts; simpl in Hrun; [|done].
  set (s1 := set_x_prime _ _ _) in Hrun.
  destruct (reset_actions_spec node acts s1 ∅) as (s2 & d & Hrun' & Hreg & Hframe & Hx & Hxp & Hd).
  { subst s1. simpl. by rewrite lookup_insert_eq. }
  rewrite Hrun' in Hrun. injection Hrun as <-.
  split; [by rewrite Hreg|]. split.
  - intros k Hk. destruct (Hframe k Hk) as [-> ->]. subst s1. simpl.
    by rewrite !lookup_insert_ne.
  - exists acts, d. split; [done|]. split; [|split; [done|]].
    + rewrite Hx. subst s1. simpl. rewrite lookup_insert_eq. by destruct acts.
    + intros a. rewrite Hd. by rewrite lookup_empty.
Qed.

(** [reset_node] raises exactly when [child_of] has no entry for the node. *)
Lemma reset_node_raises dag node s :
  child_of dag !! node = None →
  ∃ s', reset_node dag node s = Raised (KeyError_key (KNode node)) s'.
Proof. intros Hnone. unfold reset_node, getnode. rewrite Hnone. simpl. eauto. Qed.

Lemma reset_node_total dag node s :
  is_Some (child_of dag !! node) → ∃ s', reset_node dag node s = Done s'.
Proof.
  intros [acts Hacts]. unfold reset_node, getnode. rewrite Hacts. simpl.
  set (s1 := set_x_prime _ _ _).
  destruct (reset_actions_spec node acts s1 ∅) as (s2 & d & Hrun' & _).
  { subst s1. simpl. by rewrite lookup_insert_eq. }
  eauto.
Qed.


(** *** The second loop *)

Lemma matched_probability_regret dag s1 s2 n S a :
  regret s1 = regret s2 →
  matched_probability dag s1 n S a = matched_probability dag s2 n S a.
Proof. intros Hreg. unfold matched_probability, get_regret. by rewrite Hreg. Qed.

Lemma strategy_action_inv dag n S a s s' :
  strategy_action dag n S a s = Done s' →
  ∃ p d v,
    matched_probability dag s n S a = inr p
    ∧ x_prime s !! KNode n = Some d
    ∧ x s !! KNode n = Some (XNum v)
    ∧ s' = set_x (KSeq n a) (XNum (p * v)) (set_x_prime (KNode n) (<[a := p]> d) s).
Proof.
  unfold strategy_action. intros (p & Hp & Hrun)%eval_done.
  apply and_then_done in Hrun as (s1 & Hset & Hrun).
  unfold setitem_x_prime, getitem in Hset.
  destruct (x_prime s !! KNode n) as [d|] eqn:Hd; simpl in Hset; [|done].
  injection Hset as <-.
  apply eval_done in Hrun as (p' & Hp' & Hrun).
  apply eval_done in Hrun as (v & Hv & Hrun).
  injection Hrun as <-.
  unfold get_x_prime, getitem, getaction in Hp'. simpl in Hp'.
  rewrite !lookup_insert_eq in Hp'. injection Hp' as <-.
  unfold get_x_num, getitem in Hv. simpl in Hv.
  destruct (x s !! KNode n) as [[q|]|] eqn:Hx; try done.
  injection Hv as <-. by exists p, d, q.
Qed.

Lemma strategy_actions_spec dag n S acts : ∀ s s',
  for_each (strategy_action dag n S) acts s = Done s' →
  regret s' = regret s
  ∧ (∀ k, (∀ a, k ≠ KSeq n a) → x s' !! k = x s !! k)
  ∧ (∀ k, k ≠ KNode n → x_prime s' !! k = x_prime s !! k)
  ∧ ∀ a,
      (a ∈ acts →
         ∃ p v, matched_probability dag s n S a = inr p
                ∧ get_x_prime s' n a = inr p
                ∧ x s !! KNode n = Some (XNum v)
                ∧ x s' !! KSeq n a = Some (XNum (p * v)))
      ∧ (a ∉ acts →
           get_x_prime s' n a = get_x_prime s n a
           ∧ x s' !! KSeq n a = x s !! KSeq n a).
Proof.
  induction acts as [|a0 acts IH]; intros s s' Hrun.
  - injection Hrun as <-. repeat split; try done. by intros ?%elem_of_nil.
  - simpl in Hrun. apply and_then_done in Hrun as (s1 & Hstep & Hrun).
    apply strategy_action_inv in Hstep as (p0 & d & v & Hp0 & Hd & Hv & ->).
    set (s1 := set_x _ _ _) in *.
    destruct (IH _ _ Hrun) as (Hreg & Hx & Hxp & Hacts).
    assert (regret s1 = regret s) as Hreg1 by done.
    assert (x s1 !! KNode n = Some (XNum v)) as Hv1.
    { subst s1. simpl. by rewrite lookup_insert_ne. }
    split; [by rewrite Hreg|]. split; [|split].
    + intros k Hk. rewrite Hx by done. subst s1. simpl.
      by rewrite lookup_insert_ne.
    + intros k Hk. rewrite Hxp by done. subst s1. simpl.
      by rewrite lookup_insert_ne.
    + intros a. destruct (Hacts a) as [Hin Hout].
      assert (a ≠ a0 → get_x_prime s1 n a = get_x_prime s n a
                       ∧ x s1 !! KSeq n a = x s !! KSeq n a) as Hother.
      { intros Hne. subst s1. unfold get_x_prime, getitem, getaction. simpl.
        rewrite lookup_insert_eq, Hd, lookup_insert_ne by done.
        split; [done|]. rewrite lookup_insert_ne; [done | congruence]. }
      split.
      * intros Ha. destruct (decide (a ∈ acts)) as [Hacts'|Hacts'].
        -- destruct (Hin Hacts') as (p & v' & Hp & Hxp' & Hv' & Hseq).
           exists p, v. rewrite Hv1 in Hv'. injection Hv' as <-.
           by rewrite <-(matched_probability_regret dag s1 s).
        -- destruct (Hout Hacts') as [Hxp' Hseq].
           apply elem_of_cons in Ha as [->|?]; [|done].
           exists p0, v. split; [done|]. rewrite Hxp', Hseq. subst s1.
           unfold get_x_prime, getitem, getaction. simpl.
           by rewrite !lookup_insert_eq.
      * intros Ha. apply not_elem_of_cons in Ha as [Hne Ha].
        destruct (Hout Ha) as [-> ->]. by apply Hother.
Qed.


Lemma positive_regret_sum_regret s1 s2 n acts :
  regret s1 = regret s2 →
  positive_regret_sum s1 n acts = positive_regret_sum s2 n acts.
Proof. intros Hreg. unfold positive_regret_sum, get_regret. by rewrite Hreg. Qed.

Lemma reach_node_inv dag n s s1 :
  reach_node dag n s = Done s1 →
  (n = root dag ∧ s1 = s)
  ∨ (n ≠ root dag
     ∧ ∃ parents v,
         parent_of dag !! n = Some parents
         ∧ sum_from (get_x_num s) 0 parents = inr v
         ∧ s1 = set_x (KNode n) (XNum v) s).
Proof.
  unfold reach_node. case_decide as Hroot.
  - intros (parents & Hps & Hrun)%eval_done.
    apply eval_done in Hrun as (v & Hv & Hrun). injection Hrun as <-.
    right. split; [done|]. exists parents, v. split; [|done].
    unfold getnode in Hps. by destruct (parent_of dag !! n); simplify_eq.
  - intros [= <-]. left. split; [|done]. by destruct (decide (n = root dag)).
Qed.

Lemma strategy_node_spec dag n s s' :
  strategy_node dag n s = Done s' → node_step dag n s s'.
Proof.
  unfold strategy_node. intros (s1 & Hreach & Hrun)%and_then_done.
  apply eval_done in Hrun as (acts & Hacts & Hrun).
  apply eval_done in Hrun as (S & HS & Hrun).
  apply strategy_actions_spec in Hrun as (Hreg & Hx & Hxp & Hin).
  unfold getnode in Hacts.
  destruct (child_of dag !! n) as [acts'|] eqn:Hchild; simplify_eq.
  assert (regret s1 = regret s ∧ x_prime s1 = x_prime s
          ∧ ∀ k, k ≠ KNode n → x s1 !! k = x s !! k) as (Hreg1 & Hxp1 & Hx1).
  { destruct (reach_node_inv _ _ _ _ Hreach)
      as [[_ ->]|(_ & parents & v & _ & _ & ->)]; [done|].
    simpl. repeat split. intros k Hk. by rewrite lookup_insert_ne. }
  split; [by rewrite Hreg|]. split; [|split; [|split; [|split]]].
  - intros k Hk Hseq. rewrite Hx by done. by apply Hx1.
  - intros k Hk. rewrite Hxp by done. by rewrite Hxp1.
  - intros Hroot. destruct (reach_node_inv _ _ _ _ Hreach)
      as [[? _]|(_ & parents & v & Hps & Hv & ->)]; [done|].
    exists parents, v. split; [done|]. split; [done|].
    rewrite Hx by done. simpl. by rewrite lookup_insert_eq.
  - intros Hroot. destruct (reach_node_inv _ _ _ _ Hreach)
      as [[_ ->]|(? & _)]; [|done]. by apply Hx.
  - exists acts, S. split; [done|].
    split; [by rewrite <-(positive_regret_sum_regret s1 s)|].
    intros a Ha. destruct (Hin a) as [Hin' _].
    destruct (Hin' Ha) as (p & v & Hp & Hget & Hv & Hseq).
    exists p, v. split; [by rewrite <-(matched_probability_regret dag s1 s)|].
    split; [done|]. split; [|done]. by rewrite Hx.
Qed.

Lemma strategy_loop_frame dag l s s' :
  for_each (strategy_node dag) l s = Done s' → loop_frame dag l s s'.
Proof.
  apply (for_each_rel (loop_frame dag l)).
  - intros t. by repeat split.
  - intros t1 t2 t3 (Hr1 & Hx1 & Hp1 & Ho1) (Hr2 & Hx2 & Hp2 & Ho2).
    split; [by rewrite Hr2|]. split; [|split].
    + intros k Hk. rewrite Hx2 by done. by apply Hx1.
    + intros k Hk. rewrite Hp2 by done. by apply Hp1.
    + by rewrite Ho2.
  - intros n t1 t2 Hn (Hreg & Hx & Hxp & _ & Hroot & _)%strategy_node_spec.
    split; [done|]. split; [|split].
    + intros k Hk. destruct (Hk n Hn). by apply Hx.
    + intros k Hk. apply Hxp. by apply Hk.
    + destruct (decide (n = root dag)) as [->|Hne]; [by apply Hroot|].
      apply Hx; [congruence | done].
Qed.

Lemma next_strategy_inv dag s s' :
  next_strategy dag s = Done s' →
  ∃ s0, for_each (reset_node dag) (nodes dag) s = Done s0
        ∧ for_each (strategy_node dag) (active_nodes dag) s0 = Done s'.
Proof. apply and_then_done. Qed.

(** The state an active node is processed in, and what the finished
    pass retains of its processing, when no node is listed twice. *)
Lemma active_node_final dag pre n post s0 s' :
  active_nodes dag = pre ++ n :: post →
  NoDup (active_nodes dag) →
  for_each (strategy_node dag) (active_nodes dag) s0 = Done s' →
  ∃ sa,
    for_each (strategy_node dag) pre s0 = Done sa
    ∧ regret sa = regret s0
    ∧ regret s' = regret s0
    ∧ (∀ m a, m ∈ pre → x s' !! KSeq m a = x sa !! KSeq m a)
    ∧ (n ≠ root dag →
         ∃ parents v,
           parent_of dag !! n = Some parents
           ∧ sum_from (get_x_num sa) 0 parents = inr v
           ∧ x s' !! KNode n = Some (XNum v))
    ∧ ∃ acts S,
        child_of dag !! n = Some acts
        ∧ positive_regret_sum s0 n acts = inr S
        ∧ ∀ a, a ∈ acts →
            ∃ p v,
              matched_probability dag s0 n S a = inr p
              ∧ get_x_prime s' n a = inr p
              ∧ x s' !! KNode n = Some (XNum v)
              ∧ x s' !! KSeq n a = Some (XNum (p * v)).
Proof.
  intros Hl Hnodup Hrun. rewrite Hl in Hrun, Hnodup.
  apply for_each_split in Hrun as (sa & sb & Hpre & Hn & Hpost).
  apply list.NoDup_app in Hnodup as (_ & Hdisj & Hnodup).
  apply list.NoDup_cons in Hnodup as [Hnpost _].
  pose proof (strategy_loop_frame _ _ _ _ Hpre) as (Hrega & _).
  pose proof (strategy_node_spec _ _ _ _ Hn)
    as (Hregb & Hxb & Hxpb & Hreach & _ & acts & S & Hacts & HS & Hin).
  pose proof (strategy_loop_frame _ _ _ _ Hpost) as (Hregp & Hxp & Hxpp & _).
  assert (∀ k, k = KNode n ∨ (∃ a, k = KSeq n a) → x s' !! k = x sb !! k) as Hkeep.
  { intros k Hk. apply Hxp. intros m Hm.
    destruct Hk as [->|[a ->]]; (split; [|intros a']); congruence. }
  exists sa. split; [done|]. split; [done|]. split; [congruence|].
  split; [|split].
  - intros m a Hm. transitivity (x sb !! KSeq m a).
    + apply Hxp. intros m' Hm'. split; [done|]. intros a' [= -> ->].
      apply (Hdisj m'); [done | by right].
    + apply Hxb; [done|]. intros a' [= -> ->]. apply (Hdisj n); [done | by left].
  - intros Hroot. destruct (Hreach Hroot) as (parents & v & Hps & Hv & Hx).
    exists parents, v. split; [done|]. split; [done|]. rewrite Hkeep; eauto.
  - exists acts, S. split; [done|].
    split; [by rewrite <-(positive_regret_sum_regret sa s0)|].
    intros a Ha. destruct (Hin a Ha) as (p & v & Hp & Hget & Hv & Hseq).
    exists p, v. split; [by rewrite <-(matched_probability_regret dag sa s0)|].
    split.
    { unfold get_x_prime, getitem in *. rewrite Hxpp; [done|].
      intros m Hm [= ->]. done. }
    split; rewrite Hkeep; eauto.
Qed.


(** What the first loop leaves behind for every listed node. *)
Lemma reset_loop_spec dag l : ∀ s s0,
  for_each (reset_node dag) l s = Done s0 →
  regret s0 = regret s
  ∧ (∀ k, (∀ m, m ∈ l → k ≠ KNode m) →
       x s0 !! k = x s !! k ∧ x_prime s0 !! k = x_prime s !! k)
  ∧ ∀ n, n ∈ l →
      ∃ acts d,
        child_of dag !! n = Some acts
        ∧ x s0 !! KNode n = Some (if acts is [] then XDict else XNum 1)
        ∧ x_prime s0 !! KNode n = Some d
        ∧ ∀ a, d !! a = if decide (a ∈ acts) then Some 1 else None.
Proof.
  induction l as [|n0 l IH]; intros s s0 Hrun.
  - injection Hrun as <-. repeat split. by intros n ?%elem_of_nil.
  - simpl in Hrun. apply and_then_done in Hrun as (s1 & Hn0 & Hrun).
    apply reset_node_spec in Hn0 as (Hreg1 & Hframe1 & Hnode).
    destruct (IH _ _ Hrun) as (Hreg & Hframe & Hnodes).
    split; [by rewrite Hreg|]. split.
    + intros k Hk.
      destruct (Hframe k) as [-> ->]; [intros m Hm; apply Hk; by right|].
      apply Hframe1, Hk. by left.
    + intros n Hn. destruct (decide (n ∈ l)) as [Hl|Hl]; [by apply Hnodes|].
      apply elem_of_cons in Hn as [->|?]; [|done].
      destruct (Hframe (KNode n0)) as [Hx Hxp].
      { intros m Hm [= ->]. done. }
      rewrite Hx, Hxp. done.
Qed.

(** *** Arithmetic of regret matching *)

Lemma py_max_0_nonneg (r : Qc) : 0 ≤ py.max r 0.
Proof.
  unfold py.max. case_decide as Hr; [done|]. by apply Qcnot_lt_le.
Qed.

Lemma py_max_0_ge (r : Qc) : r ≤ py.max r 0.
Proof.
  unfold py.max. case_decide as Hr; [by apply Qclt_le_weak | done].
Qed.

Lemma sum_from_lower_bound {E A} (f : A → E + Qc) (l : list A) :
  (∀ i v, i ∈ l → f i = inr v → 0 ≤ v) →
  ∀ acc total, sum_from f acc l = inr total →
    acc ≤ total ∧ ∀ i v, i ∈ l → f i = inr v → acc + v ≤ total.
Proof.
  induction l as [|i0 l IH]; intros Hpos acc total Hsum.
  - injection Hsum as <-. split; [done|]. by intros i v ?%elem_of_nil.
  - simpl in Hsum. destruct (f i0) as [e|v0] eqn:Hv0; [done|].
    destruct (IH (λ i v Hi, Hpos i v (list_elem_of_further _ _ _ Hi)) _ _ Hsum)
      as [Hle Hin].
    assert (0 ≤ v0) as Hv0pos by (eapply Hpos; [left | done]).
    assert (acc ≤ acc + v0) as Hacc.
    { rewrite <-(Qcplus_0_r acc) at 1. by apply Qcplus_le_compat. }
    split; [by etrans|].
    intros i v [->|Hi]%elem_of_cons Hv.
    + rewrite Hv0 in Hv. injection Hv as <-. done.
    + etrans; [|by eapply Hin]. by apply Qcplus_le_compat.
Qed.

(** No regret exceeds the sum [S] of the positive parts. *)
Lemma regret_le_positive_regret_sum s n acts S a r :
  positive_regret_sum s n acts = inr S →
  a ∈ acts → get_regret s n a = inr r → r ≤ S ∧ 0 ≤ S.
Proof.
  intros HS Ha Hr.
  apply sum_from_lower_bound in HS as [Hpos Hin].
  - split; [|done]. etrans; [apply py_max_0_ge|].
    rewrite <-(Qcplus_0_l (py.max r 0)). apply (Hin a); [done|]. by rewrite Hr.
  - intros a' v _ Hv. destruct (get_regret s n a'); simplify_eq.
    apply py_max_0_nonneg.
Qed.

(** The quotient of line 49 is 0 for every regret that [S] bounds. *)
Lemma shifted_regret_zero (r S : Qc) : r ≤ S → py.max (r - S) 0 / S = 0.
Proof.
  intros Hle. assert (r - S ≤ 0) as Hneg.
  { replace 0 with (S - S) by ring. unfold Qcminus.
    by apply Qcplus_le_compat. }
  unfold py.max. case_decide as Hlt.
  - unfold Qcdiv. ring.
  - apply Qcnot_lt_le in Hlt.
    rewrite (Qcle_antisym _ _ Hneg Hlt). unfold Qcdiv. ring.
Qed.

End forward_facts.

Section forward_theorems.
Context {bnode action : Type} `{Countable bnode} `{Countable action}.
Local Abbreviation Dag := (Dag (bnode := bnode) (action := action)).
Local Abbreviation DagRegMin := (DagRegMin (bnode := bnode) (action := action)).
Local Abbreviation key := (key (bnode := bnode) (action := action)).
Implicit Types (dag : Dag) (s : DagRegMin) (k : key) (n node : bnode)
  (a : action) (acts : list action) (d : gmap action Qc).

Lemma sum_from_ext {E A} (f g : A → E + Qc) (l : list A) :
  (∀ i, i ∈ l → f i = g i) → ∀ acc, sum_from f acc l = sum_from g acc l.
Proof.
  induction l as [|i0 l IH]; intros Hfg acc; [done|]. simpl.
  rewrite <-(Hfg i0) by left. destruct (f i0); [done|].
  apply IH. intros i Hi. apply Hfg. by right.
Qed.

(** The value regret matching leaves at an active node: uniform when
    [S = 0], and 0 for every action when [S ≠ 0]. *)
Lemma next_strategy_x_prime dag s s' n :
  next_strategy dag s = Done s' →
  NoDup (active_nodes dag) →
  n ∈ active_nodes dag →
  ∃ acts S,
    child_of dag !! n = Some acts
    ∧ positive_regret_sum s n acts = inr S
    ∧ ∀ a, a ∈ acts →
        get_x_prime s' n a = inr (if decide (S = 0) then 1 / len acts else 0).
Proof.
  intros (s0 & Hreset & Hloop)%next_strategy_inv Hnodup Hn.
  apply reset_loop_spec in Hreset as (Hreg0 & _).
  apply list_elem_of_split in Hn as (pre & post & Hl).
  destruct (active_node_final _ _ _ _ _ _ Hl Hnodup Hloop)
    as (sa & _ & _ & _ & _ & _ & acts & S & Hacts & HS & Hin).
  rewrite (positive_regret_sum_regret s0 s) in HS by done.
  exists acts, S. split; [done|]. split; [done|].
  intros a Ha. destruct (Hin a Ha) as (p & v & Hp & -> & _). f_equal.
  rewrite (matched_probability_regret dag s0 s) in Hp by done.
  unfold matched_probability in Hp. case_decide as HS0.
  - unfold getnode in Hp. rewrite Hacts in Hp. by injection Hp.
  - destruct (get_regret s n a) as [e|r] eqn:Hr; [done|]. injection Hp as <-.
    apply shifted_regret_zero. by eapply regret_le_positive_regret_sum.
Qed.

Lemma sum_from_const {E A} (f : A → E + Qc) (c : Qc) (l : list A) :
  (∀ i, i ∈ l → f i = inr c) →
  ∀ acc, sum_from f acc l = inr (acc + len l * c).
Proof.
  unfold len. induction l as [|i0 l IH]; intros Hc acc.
  - simpl sum_from. simpl length. change (Z.of_nat 0) with 0%Z.
    rewrite Z2Qc_inj_0. f_equal. ring.
  - simpl sum_from. rewrite (Hc i0) by left.
    rewrite IH by (intros i Hi; apply Hc; by right). f_equal.
    replace (Z.of_nat (length (i0 :: l))) with (1 + Z.of_nat (length l))%Z
      by (simpl length; lia).
    rewrite Z2Qc_inj_add, Z2Qc_inj_1. ring.
Qed.

Lemma len_nonzero {A} (l : list A) : l ≠ [] → len l ≠ 0.
Proof.
  unfold len. intros Hl Hlen. rewrite <-Z2Qc_inj_0 in Hlen.
  apply Z2Qc_inj in Hlen. destruct l; [done | simpl in Hlen; lia].
Qed.

(** The local probabilities regret matching leaves at an active node
    with an action add up to 1 when [S = 0] and to 0 when [S ≠ 0]. *)
Lemma next_strategy_local_mass dag s s' n :
  next_strategy dag s = Done s' →
  NoDup (active_nodes dag) →
  n ∈ active_nodes dag →
  ∃ acts S,
    child_of dag !! n = Some acts
    ∧ positive_regret_sum s n acts = inr S
    ∧ (acts ≠ [] →
       spec.local_mass s' n acts = inr (if decide (S = 0) then 1 else 0)).
Proof.
  intros Hrun Hnodup Hn.
  destruct (next_strategy_x_prime dag s s' n Hrun Hnodup Hn)
    as (acts & S & Hacts & HS & Hin).
  exists acts, S. split; [done|]. split; [done|]. intros Hne.
  unfold spec.local_mass. rewrite (sum_from_const _ _ _ Hin). f_equal.
  case_decide.
  - pose proof (len_nonzero acts Hne). field. done.
  - ring.
Qed.

Lemma sum_from_inr_elem {E A} (f : A → E + Qc) (l : list A) : ∀ acc total i,
  sum_from f acc l = inr total → i ∈ l → ∃ v, f i = inr v.
Proof.
  induction l as [|b l IH]; intros acc total i Hsum Hi;
    [by apply elem_of_nil in Hi|].
  simpl in Hsum. destruct (f b) as [e|v] eqn:Hfb; [done|].
  apply elem_of_cons in Hi as [->|Hi]; [eauto | by eapply IH].
Qed.

(** The reach of an active node is summed from [x[(parent, action)]],
    which only the pass over an active parent assigns: below a parent
    that is not active the sum reads what the caller left in [x], and
    raises when that is nothing. *)
Lemma next_strategy_inactive_parent dag s pre n post parents p a :
  active_nodes dag = pre ++ n :: post →
  n ≠ root dag →
  parent_of dag !! n = Some parents →
  KSeq p a ∈ parents →
  p ∉ active_nodes dag →
  x s !! KSeq p a = None →
  ∃ e s', next_strategy dag s = Raised e s'.
Proof.
  intros Hl Hroot Hps Hk Hp Hx.
  destruct (next_strategy dag s) as [s'|e s'] eqn:Hrun; [exfalso | eauto].
  apply next_strategy_inv in Hrun as (s0 & Hreset & Hloop).
  rewrite Hl in Hloop.
  apply for_each_split in Hloop as (sa & sb & Hpre & Hn & _).
  apply strategy_node_spec in Hn as (_ & _ & _ & Hreach & _).
  destruct (Hreach Hroot) as (parents' & v & Hps' & Hv & _).
  rewrite Hps in Hps'. injection Hps' as <-.
  destruct (sum_from_inr_elem _ _ _ _ _ Hv Hk) as [w Hw].
  apply strategy_loop_frame in Hpre as (_ & Hxpre & _).
  apply reset_loop_spec in Hreset as (_ & Hxreset & _).
  unfold get_x_num, getitem in Hw.
  rewrite Hxpre, (proj1 (Hxreset (KSeq p a) (λ m _, ltac:(done)))), Hx in Hw;
    [done|].
  intros m Hm. split; [done|]. intros a' [= -> ->]. apply Hp.
  rewrite Hl. apply elem_of_app. by left.
Qed.

(** C3 (amended): after a finished [next_strategy], (1) an active node
    other than the root, in a list of active nodes without repetition in
    which the parents of the node come first, has in [x[node]] the sum
    over the pairs [(parent, action)] of [parent_of[node]] of
    [x[parent] * x_prime[parent][action]]; (2) [x[root]] is 1 when the
    root is a node of the DAG with one action or more; (3) a node of
    [dag.nodes] that is not active keeps the value of the first loop, 1,
    or the empty dictionary when it has no action.  And [next_strategy]
    does not finish but raises when an active node other than the root
    has a parent pair whose parent is not active and for which [x] held
    no entry before the call. *)
Theorem next_strategy_reach dag s :
  (∀ s',
     next_strategy dag s = Done s' →
     (∀ pre n post parents,
        NoDup (active_nodes dag) →
        active_nodes dag = pre ++ n :: post →
        n ≠ root dag →
        parent_of dag !! n = Some parents →
        spec.parents_first dag pre parents →
        ∃ v, spec.reach s' parents = inr v ∧ x s' !! KNode n = Some (XNum v))
     ∧ (∀ a acts,
          root dag ∈ nodes dag →
          child_of dag !! root dag = Some (a :: acts) →
          x s' !! KNode (root dag) = Some (XNum 1))
     ∧ (∀ n,
          n ∈ nodes dag →
          n ∉ active_nodes dag →
          ∃ acts,
            child_of dag !! n = Some acts
            ∧ x s' !! KNode n = Some (if acts is [] then XDict else XNum 1)))
  ∧ (∀ pre n post parents p a,
       active_nodes dag = pre ++ n :: post →
       n ≠ root dag →
       parent_of dag !! n = Some parents →
       KSeq p a ∈ parents →
       p ∉ active_nodes dag →
       x s !! KSeq p a = None →
       ∃ e s', next_strategy dag s = Raised e s').
Proof.
  split; [|intros pre n post parents p a; apply next_strategy_inactive_parent].
  intros s' (s0 & Hreset & Hloop)%next_strategy_inv.
  split; [|split].
  - intros pre n post parents Hnodup Hl Hroot Hps Hfirst.
    destruct (active_node_final _ _ _ _ _ _ Hl Hnodup Hloop)
      as (sa & _ & _ & _ & Hseq & Hreach & _).
    destruct (Hreach Hroot) as (parents' & v & Hps' & Hv & Hx).
    rewrite Hps in Hps'. injection Hps' as <-.
    exists v. split; [|done]. rewrite <-Hv. unfold spec.reach.
    apply sum_from_ext. intros k Hk.
    destruct (Hfirst k Hk) as (p & a & acts & -> & Hp & Hacts & Ha).
    assert (p ∈ active_nodes dag) as Hpin.
    { rewrite Hl. apply elem_of_app. by left. }
    apply list_elem_of_split in Hpin as (pre' & post' & Hl').
    destruct (active_node_final _ _ _ _ _ _ Hl' Hnodup Hloop)
      as (_ & _ & _ & _ & _ & _ & acts' & S & Hacts' & _ & Hin).
    rewrite Hacts in Hacts'. injection Hacts' as <-.
    destruct (Hin a Ha) as (q & w & _ & Hq & Hw & Hqw).
    unfold spec.edge_reach, get_x_num, getitem.
    rewrite Hw, Hq, <-(Hseq p a Hp), Hqw. f_equal. ring.
  - intros a acts Hrootin Hrootacts.
    apply strategy_loop_frame in Hloop as (_ & _ & _ & ->).
    apply reset_loop_spec in Hreset as (_ & _ & Hnodes).
    destruct (Hnodes _ Hrootin) as (acts' & d & Hacts & Hx & _).
    rewrite Hrootacts in Hacts. injection Hacts as <-. done.
  - intros n Hn Hinactive.
    apply reset_loop_spec in Hreset as (_ & _ & Hnodes).
    destruct (Hnodes n Hn) as (acts & d & Hacts & Hx & _).
    apply strategy_loop_frame in Hloop as (_ & Hxframe & _).
    exists acts. split; [done|]. rewrite Hxframe; [done|].
    intros m Hm. split; [|done]. intros [= ->]. done.
Qed.

(** C6 (amended): a node of [dag.nodes] that is not an active node
    leaves a finished [next_strategy] with [x_prime[node][a] = 1] for
    each of its actions and no other entry; regret matching does not
    touch it. *)
Theorem next_strategy_inactive_x_prime dag s s' n :
  next_strategy dag s = Done s' →
  n ∈ nodes dag →
  n ∉ active_nodes dag →
  ∃ acts d,
    child_of dag !! n = Some acts
    ∧ x_prime s' !! KNode n = Some d
    ∧ ∀ a, d !! a = if decide (a ∈ acts) then Some 1 else None.
Proof.
  intros (s0 & Hreset & Hloop)%next_strategy_inv Hn Hinactive.
  apply reset_loop_spec in Hreset as (_ & _ & Hnodes).
  destruct (Hnodes n Hn) as (acts & d & Hacts & _ & Hd & Hones).
  apply strategy_loop_frame in Hloop as (_ & _ & Hxp & _).
  exists acts, d. split; [done|]. split; [|done].
  rewrite Hxp; [done|]. intros m Hm [= ->]. done.
Qed.

End forward_theorems.

(** ** The backward pass, [observe_utility] *)

Section backward_facts.
Context {bnode action : Type} `{Countable bnode} `{Countable action}.
Local Abbreviation Dag := (Dag (bnode := bnode) (action := action)).
Local Abbreviation DagRegMin := (DagRegMin (bnode := bnode) (action := action)).
Local Abbreviation key := (key (bnode := bnode) (action := action)).
Local Abbreviation backward := (backward (bnode := bnode) (action := action)).
Implicit Types (dag : Dag) (s : DagRegMin) (b : backward) (k : key)
  (n node : bnode) (a : action) (acts : list action).

Lemma init_u_node_keys dag : node_keys (init_u dag).
Proof.
  unfold init_u. generalize (nodes dag). intros l.
  assert (node_keys (∅ : gmap key Qc)) as Hempty.
  { intros k [v Hv]. by rewrite lookup_empty in Hv. }
  revert Hempty. generalize (∅ : gmap key Qc).
  induction l as [|n l IH]; intros u0 Hu0; simpl; [done|].
  apply IH. case_decide; [|done].
  intros k [v Hv]. destruct (decide (k = KNode n)) as [->|Hne]; [by eexists|].
  rewrite lookup_insert_ne in Hv by done. apply Hu0. by eexists.
Qed.

Lemma node_keys_insert (u0 : gmap key Qc) k v :
  node_keys u0 → is_Some (u0 !! k) → node_keys (<[k := v]> u0).
Proof.
  intros Hu0 Hk k' [v' Hv']. destruct (decide (k' = k)) as [->|Hne].
  - by apply Hu0.
  - rewrite lookup_insert_ne in Hv' by done. apply Hu0. by eexists.
Qed.

(** No term of the sum of line 63 can be evaluated: [u] has no entry
    for a tuple. *)
Lemma weighted_child_raises b node a :
  node_keys (u b) → weighted_child b node a = inl (KeyError_key (KSeq node a)).
Proof.
  intros Hkeys. unfold weighted_child, getitem.
  destruct (u b !! KSeq node a) as [v|] eqn:Hv; [|done].
  destruct (Hkeys (KSeq node a)) as [m Hm]; [by eexists | done].
Qed.

Lemma propagate_spec node parent b :
  node_keys (u b) →
  match propagate node parent b with
  | Done b' => self b' = self b ∧ node_keys (u b')
  | Raised e b' => b' = b ∧ ∃ k, e = KeyError_key k
  end.
Proof.
  intros Hkeys. unfold propagate, getitem.
  destruct (u b !! parent) as [old|] eqn:Hold; simpl; [|by eauto].
  destruct (u b !! KNode node) as [un|] eqn:Hun; simpl; [|by eauto].
  split; [done|]. apply node_keys_insert; [done | by eexists].
Qed.

Lemma propagate_loop_spec node parents : ∀ b,
  node_keys (u b) →
  match for_each (propagate node) parents b with
  | Done b' => self b' = self b ∧ node_keys (u b')
  | Raised e b' => self b' = self b ∧ ∃ k, e = KeyError_key k
  end.
Proof.
  induction parents as [|parent parents IH]; intros b Hkeys; simpl; [done|].
  pose proof (propagate_spec node parent b Hkeys) as Hstep.
  destruct (propagate node parent b) as [b1|e b1]; simpl.
  - destruct Hstep as [Hself Hkeys1]. specialize (IH b1 Hkeys1).
    destruct (for_each _ parents b1); by rewrite <-Hself.
  - by destruct Hstep as [-> ?].
Qed.

(** The body of the backward loop finishes only at a node without an
    action, and then without touching the object; otherwise it raises
    [KeyError], again without touching the object. *)
Lemma observe_node_spec dag node b :
  node_keys (u b) →
  match observe_node dag node b with
  | Done b' =>
      self b' = self b ∧ node_keys (u b') ∧ child_of dag !! node = Some []
  | Raised e b' => self b' = self b ∧ ∃ k, e = KeyError_key k
  end.
Proof.
  intros Hkeys. unfold observe_node, node_utility, getitem, getnode.
  destruct (u b !! KNode node) as [old|] eqn:Hold; simpl; [|by eauto].
  destruct (child_of dag !! node) as [[|a acts]|] eqn:Hacts; simpl;
    [| |by eauto].
  - set (b1 := set_u _ _ _).
    destruct (parent_of dag !! node) as [parents|] eqn:Hps; simpl; [|by eauto].
    assert (node_keys (u b1)) as Hkeys1.
    { apply node_keys_insert; [done | by eexists]. }
    pose proof (propagate_loop_spec node parents b1 Hkeys1) as Hloop.
    destruct (for_each _ parents b1); by destruct Hloop.
  - rewrite weighted_child_raises by done. simpl. eauto.
Qed.

Lemma observe_loop_spec dag l : ∀ b,
  node_keys (u b) →
  match for_each (observe_node dag) l b with
  | Done b' =>
      self b' = self b ∧ ∀ n, n ∈ l → child_of dag !! n = Some []
  | Raised e b' => self b' = self b ∧ ∃ k, e = KeyError_key k
  end.
Proof.
  induction l as [|n l IH]; intros b Hkeys; simpl.
  - split; [done|]. by intros n ?%elem_of_nil.
  - pose proof (observe_node_spec dag n b Hkeys) as Hstep.
    destruct (observe_node dag n b) as [b1|e b1]; simpl; [|done].
    destruct Hstep as (Hself & Hkeys1 & Hacts). specialize (IH b1 Hkeys1).
    destruct (for_each _ l b1) as [b2|e b2].
    + destruct IH as [Hself2 Hall]. split; [congruence|].
      intros m [->|Hm]%elem_of_cons; [done | by apply Hall].
    + destruct IH as [Hself2 He]. split; [congruence | done].
Qed.

(** X20: [observe_utility] never changes a regret, nor any other field
    of the object, whether it finishes or raises. *)
Lemma observe_utility_self dag gradient s :
  self (final (observe_utility dag gradient s)) = s.
Proof.
  unfold observe_utility.
  pose proof (observe_loop_spec dag (active_nodes dag)
                {| self := s; u := init_u dag |} (init_u_node_keys dag)) as Hloop.
  destruct (for_each _ _ _); by destruct Hloop.
Qed.

(** X21: [observe_utility] finishes only when no active node has an
    action. *)
Lemma observe_utility_done dag gradient s b :
  observe_utility dag gradient s = Done b →
  ∀ n, n ∈ active_nodes dag → child_of dag !! n = Some [].
Proof.
  unfold observe_utility. intros Hrun.
  pose proof (observe_loop_spec dag (active_nodes dag)
                {| self := s; u := init_u dag |} (init_u_node_keys dag)) as Hloop.
  rewrite Hrun in Hloop. by destruct Hloop.
Qed.

(** The first active node is the first one processed: it stops the pass
    unless it has an entry without an action in [child_of]. *)
Lemma observe_utility_first dag gradient s n rest :
  active_nodes dag = n :: rest →
  child_of dag !! n ≠ Some [] →
  ∃ k, observe_utility dag gradient s
       = Raised (KeyError_key k) {| self := s; u := init_u dag |}.
Proof.
  intros Hl Hacts. unfold observe_utility. rewrite Hl. simpl.
  unfold observe_node, node_utility, getitem, getnode. simpl.
  destruct (init_u dag !! KNode n) as [old|] eqn:Hold; simpl; [|by eauto].
  destruct (child_of dag !! n) as [[|a acts]|] eqn:Hchild; simpl;
    [done| |by eauto].
  rewrite weighted_child_raises by apply init_u_node_keys. simpl. eauto.
Qed.

End backward_facts.

(** ** The solver on concrete DAGs *)

Section concrete.
Import examples.

Lemma inr_Qc_eq {E} (p q : Qc) : (p == q)%Q → inr p = (inr q : E + Qc).
Proof. intros Heq. f_equal. by apply Qc_is_canon. Qed.

Lemma some_Qc_eq (p q : Qc) : (p == q)%Q → Some p = Some q.
Proof. intros Heq. f_equal. by apply Qc_is_canon. Qed.

(** C1 (failing input): with the regrets 1 and 0 the sum [S] is 1 and
    [next_strategy] stores the probability 0 for the action of regret 1,
    where the projection [max(regret, 0) / S] is 1. *)
Theorem next_strategy_drops_positive_regret :
  ∃ s',
    next_strategy fork fork_regret_1_0 = Done s'
    ∧ positive_regret_sum fork_regret_1_0 "r" ["a"; "b"] = inr 1
    ∧ get_x_prime s' "r" "a" = inr 0
    ∧ spec.regret_matching 1 (len ["a"; "b"]) 1 = 1.
Proof.
  eexists. split; [vm_compute; reflexivity|].
  split; [by apply inr_Qc_eq|]. split; [by apply inr_Qc_eq|].
  by apply Qc_is_canon.
Qed.

(** C4 (failing input): with the regrets 1 and 0 the local
    probabilities [next_strategy] stores at the root add up to 0. *)
Theorem next_strategy_local_mass_zero :
  ∃ s',
    next_strategy fork fork_regret_1_0 = Done s'
    ∧ spec.local_mass s' "r" ["a"; "b"] = inr 0.
Proof.
  eexists. split; [vm_compute; reflexivity|]. by apply inr_Qc_eq.
Qed.




(** C6 (counterexample): the game declares the probabilities 1/2 and
    1/2 for the chance node of [coin]; [next_strategy] leaves 1 and 1 in
    its [x_prime]. *)
Lemma next_strategy_chance_counterexample :
  ∃ s' d,
    next_strategy coin coin_regret_0 = Done s'
    ∧ node_type coin "c" = "chance"
    ∧ coin_probabilities !! "H" = Some (1 / 2)
    ∧ x_prime s' !! KNode "c" = Some d
    ∧ d !! "H" = Some 1
    ∧ d !! "T" = Some 1
    ∧ d ≠ coin_probabilities.
Proof.
  do 2 eexists. split; [vm_compute; reflexivity|]. split; [reflexivity|].
  split; [by apply some_Qc_eq|]. split; [reflexivity|].
  split; [by apply some_Qc_eq|]. split; [by apply some_Qc_eq|].
  intros Heq. apply (f_equal (λ m : gmap string Qc, m !! "H")) in Heq.
  vm_compute in Heq. discriminate Heq.
Qed.

(** The theorem on the chance node of [coin]. *)
Lemma next_strategy_inactive_x_prime_witness :
  ∃ s',
    next_strategy coin coin_regret_0 = Done s'
    ∧ ∃ acts d,
        child_of coin !! "c" = Some acts
        ∧ x_prime s' !! KNode "c" = Some d
        ∧ ∀ a, d !! a = if decide (a ∈ acts) then Some 1 else None.
Proof.
  eexists. split; [vm_compute; reflexivity|].
  apply (next_strategy_inactive_x_prime coin coin_regret_0).
  - vm_compute; reflexivity.
  - apply (bool_decide_unpack _). vm_compute. exact I.
  - apply (bool_decide_unpack _). vm_compute. exact I.
Defined.

(** C5 (failing input): after a finished [next_strategy] on [fork],
    [observe_utility] stops with a [KeyError] for the tuple [("r", "a")]
    and leaves the object, and so every regret, as it was. *)
Theorem observe_utility_updates_no_regret :
  ∃ s',
    next_strategy fork fork_regret_1_0 = Done s'
    ∧ observe_utility fork gradient_t s'
      = Raised (KeyError_key (KSeq "r" "a")) {| self := s'; u := init_u fork |}
    ∧ regret s' = regret fork_regret_1_0.
Proof.
  eexists. split; [vm_compute; reflexivity|]. split; reflexivity.
Qed.

(** C2 (failing input): on [chain], whose active nodes are listed
    parents first, [observe_utility] starts at the root: it stops there
    with a [KeyError] for the slot [("r", "a")], the table [u] still as
    initialised, before the child [c] is visited. *)
Theorem observe_utility_starts_at_root :
  ∃ s',
    next_strategy chain chain_regret_0 = Done s'
    ∧ active_nodes chain = ["r"; "c"]
    ∧ parent_of chain !! "c" = Some [KSeq "r" "a"]
    ∧ observe_utility chain gradient_t s'
      = Raised (KeyError_key (KSeq "r" "a")) {| self := s'; u := init_u chain |}.
Proof.
  eexists. split; [vm_compute; reflexivity|]. repeat split; reflexivity.
Qed.



End concrete.

Section concrete_reach.
Local Open Scope positive_scope.

(** C3 (counterexample): the terminal node 2 of [cases.fork] is reached
    with probability 1 through its two parent pairs, and [next_strategy]
    leaves the empty dictionary in [x] for it; on [cases.below_chance]
    the decision 3 lies below the chance node 2, which is not active, and
    [next_strategy] raises [KeyError] for the pair [(2, 1)]. *)
Lemma next_strategy_reach_counterexample :
  (next_strategy cases.fork cases.no_regret
   = Done (final (next_strategy cases.fork cases.no_regret))
   ∧ parent_of cases.fork !! 2 = Some [KSeq 1 1; KSeq 1 2]
   ∧ spec.reach (final (next_strategy cases.fork cases.no_regret))
       [KSeq 1 1; KSeq 1 2] = inr 1%Qc
   ∧ x (final (next_strategy cases.fork cases.no_regret)) !! KNode 2
     = Some XDict)
  ∧ (active_nodes cases.below_chance = [1; 3]
     ∧ parent_of cases.below_chance !! 3 = Some [KSeq 2 1]
     ∧ next_strategy cases.below_chance cases.below_chance_no_regret
       = Raised (KeyError_key (KSeq 2 1))
           (final (next_strategy cases.below_chance
                     cases.below_chance_no_regret))).
Proof.
  split.
  - split; [vm_compute; reflexivity|]. split; [reflexivity|].
    split; [by apply inr_Qc_eq | reflexivity].
  - split; [reflexivity|]. split; [reflexivity|]. vm_compute; reflexivity.
Qed.

(** The reach theorem on [cases.chain], for the child 2 of the root, the
    root and the terminal node 3, and on [cases.below_chance]. *)
Lemma next_strategy_reach_witness :
  (∃ v,
     spec.reach (final (next_strategy cases.chain cases.chain_no_regret))
       [KSeq 1 1] = inr v
     ∧ x (final (next_strategy cases.chain cases.chain_no_regret)) !! KNode 2
       = Some (XNum v))
  ∧ x (final (next_strategy cases.chain cases.chain_no_regret)) !! KNode 1
    = Some (XNum 1%Qc)
  ∧ (∃ acts,
       child_of cases.chain !! 3 = Some acts
       ∧ x (final (next_strategy cases.chain cases.chain_no_regret)) !! KNode 3
         = Some (if acts is [] then XDict else XNum 1%Qc))
  ∧ ∃ e s',
      next_strategy cases.below_chance cases.below_chance_no_regret
      = Raised e s'.
Proof.
  destruct (next_strategy_reach cases.chain cases.chain_no_regret)
    as [Hdone _].
  destruct (Hdone (final (next_strategy cases.chain cases.chain_no_regret)))
    as (Hactive & Hroot & Hinactive); [vm_compute; reflexivity|].
  split; [|split; [|split]].
  - apply (Hactive [1] 2 []).
    + apply (bool_decide_unpack _). vm_compute. exact I.
    + reflexivity.
    + apply (bool_decide_unpack _). vm_compute. exact I.
    + reflexivity.
    + intros k Hk. exists 1, 1, [1].
      apply list_elem_of_singleton in Hk as ->.
      repeat split; apply (bool_decide_unpack _); vm_compute; exact I.
  - apply (Hroot 1 []).
    + apply (bool_decide_unpack _). vm_compute. exact I.
    + reflexivity.
  - apply (Hinactive 3).
    + apply (bool_decide_unpack _). vm_compute. exact I.
    + apply (bool_decide_unpack _). vm_compute. exact I.
  - apply (proj2 (next_strategy_reach cases.below_chance
                    cases.below_chance_no_regret) [1] 3 [] [KSeq 2 1] 2 1).
    + reflexivity.
    + apply (bool_decide_unpack _). vm_compute. exact I.
    + reflexivity.
    + apply (bool_decide_unpack _). vm_compute. exact I.
    + apply (bool_decide_unpack _). vm_compute. exact I.
    + reflexivity.
Defined.

End concrete_reach.

(** ** Failures, the builder and the loader *)

Section failure_facts.
Context {bnode action : Type} `{Countable bnode} `{Countable action}.
Local Abbreviation Dag := (Dag (bnode := bnode) (action := action)).
Local Abbreviation DagRegMin := (DagRegMin (bnode := bnode) (action := action)).
Local Abbreviation key := (key (bnode := bnode) (action := action)).
Local Abbreviation backward := (backward (bnode := bnode) (action := action)).
Implicit Types (dag : Dag) (s : DagRegMin) (b : backward) (k : key)
  (n node : bnode) (a : action) (acts : list action).

(** The entries of [u] before the backward loop: the nodes of
    [dag.nodes] whose type is not ["terminal"]. *)
Lemma init_u_lookup dag n :
  init_u dag !! KNode n
  = if decide (n ∈ nodes dag ∧ node_type dag n ≠ "terminal") then Some 0 else None.
Proof.
  unfold init_u.
  enough (∀ l (u0 : gmap key Qc),
            foldl (λ u node,
                     if decide (node_type dag node ≠ "terminal")
                     then <[KNode node := 0]> u else u) u0 l !! KNode n
            = if decide (n ∈ l ∧ node_type dag n ≠ "terminal")
              then Some 0 else u0 !! KNode n) as Hfold.
  { rewrite Hfold. by rewrite lookup_empty. }
  induction l as [|m l IH]; intros u0.
  { cbn [foldl]. case_decide as Hn; [|done].
    destruct Hn as [Hn _]. by apply elem_of_nil in Hn. }
  cbn [foldl]. rewrite IH.
  destruct (decide (n ∈ l ∧ node_type dag n ≠ "terminal")) as [[Hn Hty]|Hnot].
  - rewrite decide_True; [done|]. split; [by right | done].
  - destruct (decide (n ∈ m :: l ∧ node_type dag n ≠ "terminal"))
      as [[Hn Hty]|Hnot'].
    + apply elem_of_cons in Hn as [->|Hn]; [|by destruct Hnot].
      rewrite decide_True by done. by rewrite lookup_insert_eq.
    + case_decide as Hm; [|done].
      rewrite lookup_insert_ne; [done|]. intros [= ->]. apply Hnot'.
      split; [by left | done].
Qed.

(** The backward pass stops at its first active node with a [KeyError]
    for that node when [u] or [child_of] has no entry for it. *)
Lemma observe_utility_absent dag gradient s n rest :
  active_nodes dag = n :: rest →
  n ∉ nodes dag ∨ node_type dag n = "terminal" ∨ child_of dag !! n = None →
  observe_utility dag gradient s
  = Raised (KeyError_key (KNode n)) {| self := s; u := init_u dag |}.
Proof.
  intros Hl Habsent. unfold observe_utility. rewrite Hl. simpl.
  unfold observe_node, node_utility, getitem, getnode. simpl.
  rewrite init_u_lookup. case_decide as Hin; [|done]. simpl.
  destruct Hin as [Hn Hty].
  destruct Habsent as [Hnot|[Hterm|Hnone]]; [done | done |].
  by rewrite Hnone.
Qed.

(** The first loop of [next_strategy] stops with a [KeyError] at a
    node of [dag.nodes] without an entry in [child_of], when there is
    one. *)
Lemma next_strategy_missing_entry dag s n :
  n ∈ nodes dag → child_of dag !! n = None →
  ∃ m s',
    m ∈ nodes dag ∧ child_of dag !! m = None
    ∧ next_strategy dag s = Raised (KeyError_key (KNode m)) s'.
Proof.
  intros Hn Hnone. unfold next_strategy.
  enough (∃ m s', m ∈ nodes dag ∧ child_of dag !! m = None
                  ∧ for_each (reset_node dag) (nodes dag) s
                    = Raised (KeyError_key (KNode m)) s')
    as (m & s' & ? & ? & ->) by (simpl; eauto).
  revert s. induction (nodes dag) as [|n0 l IH]; intros s.
  { by apply elem_of_nil in Hn. }
  simpl. destruct (child_of dag !! n0) as [acts|] eqn:Hn0.
  - destruct (reset_node_total dag n0 s) as [s1 ->]; [by eexists|]. simpl.
    destruct (IH ltac:(apply elem_of_cons in Hn as [->|?]; [congruence | done]) s1)
      as (m & s' & Hm & Hmnone & Hrun).
    exists m, s'. split; [by right | done].
  - destruct (reset_node_raises dag n0 s Hn0) as [s1 ->]. simpl.
    exists n0, s1. split; [by left | done].
Qed.

End failure_facts.

Section failure_theorems.
Context {bnode action : Type} `{Countable bnode} `{Countable action}.
Context {float : Type}.
Local Abbreviation Dag := (Dag (bnode := bnode) (action := action)).
Local Abbreviation DagRegMin := (DagRegMin (bnode := bnode) (action := action)).
Local Abbreviation key := (key (bnode := bnode) (action := action)).
Local Abbreviation Duck :=
  (Duck (bnode := bnode) (action := action) (float := float)).
Local Abbreviation Built :=
  (Built (bnode := bnode) (action := action) (float := float)).


End failure_theorems.

Section builder_theorems.
Import examples.

(** C8 (failing input): the team [1; 1] is not a 2-subset of the
    players 1, 2, 3, and [efg_to_tbdag] returns [None] where the claim
    has it raise; for the team [1; 2], which is one, it returns [None]
    as well, where its documentation has it convert the game. *)
Theorem efg_to_tbdag_accepts_invalid_team :
  two_subset three_players [1; 1]%Z = false
  ∧ efg_to_tbdag three_players [1; 1]%Z = Returns None
  ∧ efg_to_tbdag three_players [1; 1]%Z ≠ Raises "InvalidTeamError"
  ∧ two_subset three_players [1; 2]%Z = true
  ∧ efg_to_tbdag three_players [1; 2]%Z = Returns None.
Proof.
  split; [by vm_compute|]. split; [reflexivity|]. split; [by intros [=]|].
  split; [by vm_compute | reflexivity].
Qed.

End builder_theorems.

Section concrete_failures.
Import cases.
Local Open Scope positive_scope.



End concrete_failures.

Section loader_facts.
Import parser.
Context {float : Type} (py_float : string → option float).
Local Abbreviation Game := (Game (float := float)).
Implicit Types (st : Game * gset Z) (e : exn) (line_num : nat)
  (raw : string) (lines : list string).

Lemma chance_actions_line py line_num tokens : ∀ actions (probs : gmap string float) e,
  chance_actions py line_num tokens actions probs = inl e →
  reported_line e = None ∨ reported_line e = Some line_num.
Proof.
  induction tokens as [|tok tokens IH]; intros actions probs e; simpl; [done|].
  destruct (split_once "=" tok) as [[action prob_str]|]; [|intros [= <-]; auto].
  destruct (py prob_str); [apply IH | intros [= <-]; auto].
Qed.

Lemma leaf_payoffs_line py line_num tokens : ∀ (payoffs : gmap Z float) players_set e,
  leaf_payoffs py line_num tokens payoffs players_set = inl e →
  reported_line e = None ∨ reported_line e = Some line_num.
Proof.
  induction tokens as [|tok tokens IH]; intros payoffs players_set e; simpl; [done|].
  destruct (split_once "=" tok) as [[player_str payoff_str]|];
    [|intros [= <-]; auto].
  destruct (py_int player_str); [|intros [= <-]; auto].
  destruct (py payoff_str); [apply IH | intros [= <-]; auto].
Qed.

(** An error message of [read_line] that has a line number has the
    number of the line being read. *)
Lemma read_line_reports_own_number line_num raw st e st' :
  read_line py_float line_num raw st = Raised e st' →
  reported_line e = None ∨ reported_line e = Some line_num.
Proof.
  unfold read_line. case_decide; [done|].
  destruct (startswith "infoset " _).
  { destruct (split_once _ _) as [[??]|]; [done | intros [= <- _]; auto]. }
  destruct (startswith "node " _); [|intros [= <- _]; auto].
  destruct (split_maxsplit1 _) as [|node_path [|rest [|??]]];
    try (intros [= <- _]; auto).
  unfold read_node. simpl.
  destruct (startswith "chance actions " rest).
  { destruct (chance_actions _ _ _ _ _) as [e'|[??]] eqn:Hc; simpl; [|done].
    intros [= <- _]. by eapply chance_actions_line. }
  destruct (startswith "leaf payoffs " rest).
  { destruct (leaf_payoffs _ _ _ _ _) as [e'|[??]] eqn:Hc; simpl; [|done].
    intros [= <- _]. by eapply leaf_payoffs_line. }
  destruct (startswith "player " rest); [|intros [= <- _]; auto].
  destruct (split_once _ _) as [[??]|]; [|intros [= <- _]; auto].
  destruct (py_int _); [done | intros [= <- _]; auto].
Qed.

(** A failing [read_lines] fails on the first line that [read_line]
    rejects, after reading the lines before it. *)
Lemma read_lines_raised lines : ∀ line_num st e st',
  read_lines py_float line_num lines st = Raised e st' →
  ∃ i raw st0,
    lines !! i = Some raw
    ∧ read_lines py_float line_num (take i lines) st = Done st0
    ∧ read_line py_float (line_num + i) raw st0 = Raised e st'.
Proof.
  induction lines as [|raw lines IH]; intros line_num st e st' Hrun; [done|].
  simpl in Hrun.
  destruct (read_line py_float line_num raw st) as [st1|e1 st1] eqn:Hline;
    simpl in Hrun.
  - destruct (IH _ _ _ _ Hrun) as (i & raw' & st0 & Hi & Hpre & Hfail).
    exists (S i), raw', st0. split; [done|]. split.
    + simpl. by rewrite Hline.
    + by replace (line_num + S i)%nat with (S line_num + i)%nat by lia.
  - injection Hrun as <- <-. exists 0%nat, raw, st. split; [done|].
    split; [done|]. by rewrite Nat.add_0_r.
Qed.

(** X12: the loader's own messages name the line that failed: a line
    number in the error of [read_efg] is the number, counted from 1, of
    the first rejected line, and the lines before it were accepted. *)
Lemma read_efg_reported_line lines (self : Game) e g n :
  read_efg py_float lines self = Raised e g →
  reported_line e = Some n →
  ∃ i raw st0 st',
    n = S i ∧ lines !! i = Some raw
    ∧ read_lines py_float 1 (take i lines) (self, ∅) = Done st0
    ∧ read_line py_float n raw st0 = Raised e st'.
Proof.
  unfold read_efg. intros Hrun Hline.
  destruct (read_lines py_float 1 lines (self, ∅)) as [[??]|e' [g' ps]] eqn:Hlines;
    [done|]. injection Hrun as <- <-.
  apply read_lines_raised in Hlines as (i & raw & st0 & Hi & Hpre & Hfail).
  destruct (read_line_reports_own_number _ _ _ _ _ Hfail) as [Hn|Hn];
    rewrite Hn in Hline; [done|]. injection Hline as <-.
  exists i, raw, st0, (g', ps). done.
Qed.

(** A line that is neither blank nor an [infoset] or [node] directive
    is rejected with its line number. *)
Lemma read_line_unknown_directive line_num raw st :
  strip raw ≠ EmptyString →
  startswith "infoset " (strip raw) = false →
  startswith "node " (strip raw) = false →
  ∃ detail, read_line py_float line_num raw st
            = Raised (ValueError_line line_num detail) st.
Proof.
  intros Hblank Hinfoset Hnode. unfold read_line.
  rewrite decide_False by done. rewrite Hinfoset, Hnode. eauto.
Qed.

(** A chance token without ['='] is rejected with the line number. *)
Lemma chance_actions_missing_equals line_num tok tokens actions
    (probs : gmap string float) :
  split_once "=" tok = None →
  chance_actions py_float line_num (tok :: tokens) actions probs
  = inl (ValueError_line line_num ("Invalid action format: " +:+ tok)).
Proof. intros Hnone. simpl. by rewrite Hnone. Qed.

(** C9 (failing input): a chance probability that [float] rejects stops
    [read_efg] with the [ValueError] of [float], whose message has no
    line number; the path of the line is already in [order]. *)
Theorem read_efg_float_error_without_line :
  py_float "x" = None →
  ∃ g,
    read_efg py_float examples.bad_probability Game_init
    = Raised (ValueError_float "x") g
    ∧ reported_line (ValueError_float "x") = None
    ∧ order g = ["r"].
Proof.
  intros Hx. eexists. split.
  - vm_compute. rewrite Hx. reflexivity.
  - split; reflexivity.
Qed.

(** The same for a player identifier that [int] rejects. *)
Lemma read_efg_int_error_without_line :
  ∃ g,
    read_efg py_float examples.bad_player Game_init
    = Raised (ValueError_int "x") g
    ∧ reported_line (ValueError_int "x") = None.
Proof. eexists. split; reflexivity. Qed.

(** C10: the file [duplicate_path] declares the path [r] on two node
    lines; [read_efg] finishes, [order] holds the path twice and [nodes]
    maps it to the node of the second line only. *)
Theorem read_efg_duplicate_path :
  ∃ g,
    read_efg py_float examples.duplicate_path Game_init = Done g
    ∧ order g = ["r"; "r"]
    ∧ nodes g !! "r"
      = Some {| path := "r"; node_type := "player"; player := Some 2%Z;
                actions := ["c"]; action_probs := ∅; payoffs := ∅ |}
    ∧ size (nodes g) = 1%nat
    ∧ players g = [1; 2]%Z.
Proof. eexists. split; [vm_compute; reflexivity|]. by repeat split. Qed.

End loader_facts.

(** The theorem with [float_of_digits] as the conversion. *)
Lemma read_efg_float_error_without_line_witness :
  ∃ g,
    parser.read_efg examples.float_of_digits examples.bad_probability
      parser.Game_init
    = Raised (parser.ValueError_float "x") g
    ∧ parser.reported_line (parser.ValueError_float "x") = None
    ∧ parser.order g = ["r"].
Proof.
  apply (read_efg_float_error_without_line examples.float_of_digits).
  reflexivity.
Defined.

(** ** The loader line by line *)

#[local] Set Warnings "-clear-no-such-hyp".

Section loader_lines.
Import parser shapes.
Context {float : Type} (py_float : string → option float).
Local Abbreviation Game := (Game (float := float)).
Local Abbreviation Node := (Node (float := float)).
Implicit Types (g : Game) (ps : gset Z) (e : exn) (raw : string)
  (lines : list string).

(** An error of line [n] has no line number or the number [n]. *)
Local Abbreviation line_ok e n :=
  (reported_line e = None ∨ reported_line e = Some n).

Lemma lstrip_no_leading_space s c s' : lstrip s = String c s' → is_space c = false.
Proof.
  induction s as [|c0 s IH]; simpl; [done|].
  destruct (is_space c0) eqn:Hc0; [done|]. by intros [= <- <-].
Qed.

Lemma span_word_word c s w r :
  is_space c = false → span_word (String c s) = (w, r) → is_word w.
Proof.
  intros Hc. simpl. rewrite Hc.
  destruct (span_word s) as [w0 r0] eqn:Hspan. intros [= <- <-].
  split; [done|]. simpl. rewrite Hc. simpl.
  clear Hc. revert w0 r0 Hspan. induction s as [|c0 s IH]; intros w0 r0.
  - by intros [= <- <-].
  - simpl. destruct (is_space c0) eqn:Hc0; [by intros [= <- <-]|].
    destruct (span_word s) as [w1 r1] eqn:Hspan1. intros [= <- <-].
    simpl. rewrite Hc0. simpl. by eapply IH.
Qed.

(** The first element of [s.split(maxsplit=1)] is a word. *)
Lemma split_maxsplit1_word s w rest :
  split_maxsplit1 s = w :: rest → is_word w.
Proof.
  unfold split_maxsplit1.
  destruct (lstrip s) as [|c t] eqn:Hstrip; [done|].
  destruct (span_word (String c t)) as [w0 r0] eqn:Hspan.
  assert (is_word w0) as Hw.
  { eapply span_word_word; [by eapply lstrip_no_leading_space | done]. }
  destruct (lstrip r0); by intros [= <- _].
Qed.

(** The elements of [s.split()] are words. *)
Lemma split_words s : Forall is_word (split s).
Proof.
  induction s as [|c s IH]; simpl; [constructor|].
  destruct (is_space c) eqn:Hc; [done|].
  assert (is_word (String c EmptyString)) as Hone.
  { split; [done|]. simpl. by rewrite Hc. }
  destruct s as [|c' s']; [by apply Forall_singleton|].
  destruct (is_space c') eqn:Hc'; [by constructor|].
  destruct (split (String c' s')) as [|w ws]; [by apply Forall_singleton|].
  apply list.Forall_cons in IH as [[Hne Hw] Hws]. constructor; [|done].
  split; [done|]. simpl. by rewrite Hc, Hw.
Qed.

(** The tokens of a chance node: accepted whatever the line number, or
    rejected whatever the line number. *)
Lemma chance_actions_shape tokens : ∀ actions (probs : gmap string float),
  dom probs = list_to_set actions →
  (∃ actions' probs',
     dom probs' = list_to_set actions'
     ∧ ∀ n, chance_actions py_float n tokens actions probs = inr (actions', probs'))
  ∨ (∀ n, ∃ e, chance_actions py_float n tokens actions probs = inl e ∧ line_ok e n).
Proof.
  induction tokens as [|tok tokens IH]; intros actions probs Hdom; simpl.
  { left. by exists actions, probs. }
  destruct (split_once "=" tok) as [[action prob_str]|]; [|right; eauto].
  destruct (py_float prob_str) as [p|]; [|right; eauto].
  apply IH. rewrite dom_insert_L, Hdom, list_to_set_app_L. set_solver.
Qed.

(** The tokens of a leaf: the players it adds to [players_set] are the
    keys it adds to the payoffs, whatever the line number and the set. *)
Lemma leaf_payoffs_shape tokens : ∀ (payoffs : gmap Z float),
  (∃ payoffs' added,
     dom payoffs' = added ∪ dom payoffs
     ∧ ∀ n ps, leaf_payoffs py_float n tokens payoffs ps
               = inr (payoffs', added ∪ ps))
  ∨ (∀ n ps, ∃ e, leaf_payoffs py_float n tokens payoffs ps = inl e ∧ line_ok e n).
Proof.
  induction tokens as [|tok tokens IH]; intros payoffs; simpl.
  { left. exists payoffs, ∅. split; [set_solver|]. intros _ ps.
    by rewrite (left_id_L ∅ (∪)). }
  destruct (split_once "=" tok) as [[player_str payoff_str]|]; [|right; eauto].
  destruct (py_int player_str) as [player_num|]; [|right; eauto].
  destruct (py_float payoff_str) as [v|]; [|right; eauto].
  destruct (IH (<[player_num := v]> payoffs))
    as [(payoffs' & added & Hdom & Hrun)|Hfail]; [|by right].
  left. exists payoffs', (added ∪ {[player_num]}). split.
  - rewrite Hdom, dom_insert_L. set_solver.
  - intros n ps. rewrite Hrun. do 2 f_equal. set_solver.
Qed.

(** What a line does, whatever its number, the game and the set of
    players so far: nothing, register an information set, store a node
    under a path appended to [order], or raise, a node line after its
    path was appended to [order]. *)
Lemma read_line_shape raw :
  (blank raw ∧ ∀ n g ps, read_line py_float n raw (g, ps) = Done (g, ps))
  ∨ (∃ name paths, ∀ n g ps,
       read_line py_float n raw (g, ps) = Done (add_infoset name paths g, ps))
  ∨ (∃ node_path (node : Node),
       is_word node_path ∧ node_form node_path node
       ∧ ∀ n g ps,
           read_line py_float n raw (g, ps)
           = Done (set_node node_path node (append_order node_path g),
                   node_players node ∪ ps))
  ∨ (∀ n g ps, ∃ e,
       read_line py_float n raw (g, ps) = Raised e (g, ps) ∧ line_ok e n)
  ∨ (∃ node_path,
       is_word node_path
       ∧ ∀ n g ps, ∃ e,
           read_line py_float n raw (g, ps)
           = Raised e (append_order node_path g, ps) ∧ line_ok e n).
Proof.
  unfold read_line, blank.
  destruct (decide (strip raw = EmptyString)) as [Hblank|Hblank]; [by left|].
  right. destruct (startswith "infoset " (strip raw)).
  { destruct (split_once " nodes " _) as [[name paths]|].
    - left. by exists name, (split paths).
    - right. right. left. eauto. }
  destruct (startswith "node " (strip raw)); [|right; right; left; eauto].
  destruct (split_maxsplit1 _) as [|node_path [|rest [|??]]] eqn:Hsplit;
    try (right; right; left; by eauto).
  pose proof (split_maxsplit1_word _ _ _ Hsplit) as Hword.
  right. unfold read_node. cbn -[slice_from startswith split chance_actions leaf_payoffs].
  destruct (startswith "chance actions " rest).
  { destruct (chance_actions_shape (split (slice_from 15 rest)) [] ∅)
      as [(actions' & probs' & Hdom & Hrun)|Hfail]; [set_solver| |].
    - left. eexists node_path, _. split; [done|]. split; [|intros n g ps].
      2:{ rewrite Hrun. simpl. do 2 f_equal.
          unfold node_players. simpl. set_solver. }
      split; [done|]. left. by repeat split.
    - right. right. exists node_path. split; [done|]. intros n g ps.
      destruct (Hfail n) as (e & -> & He). simpl. eauto. }
  destruct (startswith "leaf payoffs " rest).
  { destruct (leaf_payoffs_shape (split (slice_from 13 rest)) ∅)
      as [(payoffs' & added & Hdom & Hrun)|Hfail].
    - left. eexists node_path, _. split; [done|]. split; [|intros n g ps].
      2:{ rewrite Hrun. simpl. do 2 f_equal.
          unfold node_players. simpl. rewrite Hdom. set_solver. }
      split; [done|]. right. left. by repeat split.
    - right. right. exists node_path. split; [done|]. intros n g ps.
      destruct (Hfail n ps) as (e & -> & He). simpl. eauto. }
  destruct (startswith "player " rest);
    [|right; right; exists node_path; by eauto].
  destruct (split_once " actions " _) as [[player_str actions_str]|];
    [|right; right; exists node_path; by eauto].
  destruct (py_int player_str) as [player_num|];
    [|right; right; exists node_path; by eauto].
  left. eexists node_path, _. split; [done|]. split; [|intros n g ps].
  2:{ do 2 f_equal. unfold node_players. simpl. set_solver. }
  split; [done|]. right. right.
  repeat split; try done; try (by eexists). apply split_words.
Qed.

End loader_lines.

(** ** The loader on a whole file *)

Section loader_files.
Import parser shapes.
Context {float : Type} (py_float : string → option float).
Local Abbreviation Game := (Game (float := float)).
Local Abbreviation Node := (Node (float := float)).
Implicit Types (g self : Game) (ps : gset Z) (e : exn) (raw : string)
  (lines : list string).

Lemma read_lines_app lines1 lines2 : ∀ n st,
  read_lines py_float n (lines1 ++ lines2) st
  = and_then (read_lines py_float n lines1 st)
             (read_lines py_float (n + length lines1) lines2).
Proof.
  induction lines1 as [|raw lines1 IH]; intros n st; simpl.
  - by rewrite Nat.add_0_r.
  - destruct (read_line py_float n raw st) as [st1|e st1]; simpl; [|done].
    rewrite IH. by replace (S n + length lines1)%nat with (n + S (length lines1))%nat by lia.
Qed.

(** An invariant of the pair of [self] and [players_set] that the two
    successful effects of a line keep holds when the loop finishes. *)
Lemma read_lines_done_invariant (Q : Game → gset Z → Prop) lines :
  (∀ g ps name paths, Q g ps → Q (add_infoset name paths g) ps) →
  (∀ g ps node_path (node : Node),
     is_word node_path → node_form node_path node → Q g ps →
     Q (set_node node_path node (append_order node_path g))
       (node_players node ∪ ps)) →
  ∀ n g ps g' ps',
    Q g ps → read_lines py_float n lines (g, ps) = Done (g', ps') → Q g' ps'.
Proof.
  intros Hinfoset Hnode.
  induction lines as [|raw lines IH]; intros n g ps g' ps' HQ Hrun.
  { by injection Hrun as <- <-. }
  simpl in Hrun.
  destruct (read_line_shape py_float raw)
    as [[_ Hline]|[(name & paths & Hline)|[(node_path & node & Hw & Hf & Hline)
       |[Hline|(node_path & _ & Hline)]]]].
  - rewrite Hline in Hrun. by eapply IH.
  - rewrite Hline in Hrun. eapply IH; [|done]. by apply Hinfoset.
  - rewrite Hline in Hrun. eapply IH; [|done]. by apply Hnode.
  - destruct (Hline n g ps) as (e & He & _). by rewrite He in Hrun.
  - destruct (Hline n g ps) as (e & He & _). by rewrite He in Hrun.
Qed.

(** An invariant of [self] that every effect of a line keeps, also the
    one of a rejected node line, holds however the loop ends. *)
Lemma read_lines_final_invariant (P : Game → Prop) lines :
  (∀ g name paths, P g → P (add_infoset name paths g)) →
  (∀ g node_path, is_word node_path → P g → P (append_order node_path g)) →
  (∀ g node_path (node : Node),
     is_word node_path → node_form node_path node → P g →
     P (set_node node_path node (append_order node_path g))) →
  ∀ n g ps, P g → P (final (read_lines py_float n lines (g, ps))).1.
Proof.
  intros Hinfoset Horder Hnode.
  induction lines as [|raw lines IH]; intros n g ps HP; [done|]. simpl.
  destruct (read_line_shape py_float raw)
    as [[_ Hline]|[(name & paths & Hline)|[(node_path & node & Hw & Hf & Hline)
       |[Hline|(node_path & Hw & Hline)]]]].
  - rewrite Hline. simpl. by apply IH.
  - rewrite Hline. simpl. by apply IH, Hinfoset.
  - rewrite Hline. simpl. by apply IH, Hnode.
  - destruct (Hline n g ps) as (e & -> & _). done.
  - destruct (Hline n g ps) as (e & -> & _). simpl. by apply Horder.
Qed.

Lemma final_read_efg lines self :
  final (read_efg py_float lines self)
  = match read_lines py_float 1 lines (self, ∅) with
    | Done (g, ps) => set_players (merge_sort Z.le (elements ps)) g
    | Raised _ (g, _) => g
    end.
Proof. unfold read_efg. by destruct (read_lines _ _ _ _) as [[??]|? [??]]. Qed.

(** The same for [read_efg], when assigning [players] keeps the
    invariant too. *)
Lemma read_efg_final_invariant (P : Game → Prop) lines self :
  (∀ g name paths, P g → P (add_infoset name paths g)) →
  (∀ g node_path, is_word node_path → P g → P (append_order node_path g)) →
  (∀ g node_path (node : Node),
     is_word node_path → node_form node_path node → P g →
     P (set_node node_path node (append_order node_path g))) →
  (∀ g players, P g → P (set_players players g)) →
  P self → P (final (read_efg py_float lines self)).
Proof.
  intros Hinfoset Horder Hnode Hplayers HP. rewrite final_read_efg.
  pose proof (read_lines_final_invariant P lines Hinfoset Horder Hnode
                1%nat self ∅ HP) as Hfinal.
  destruct (read_lines _ _ _ _) as [[g ps]|e [g ps]]; simpl in Hfinal;
    [by apply Hplayers | done].
Qed.

Lemma read_efg_done_inv lines self g :
  read_efg py_float lines self = Done g →
  ∃ g' ps, read_lines py_float 1 lines (self, ∅) = Done (g', ps)
           ∧ g = set_players (merge_sort Z.le (elements ps)) g'.
Proof.
  unfold read_efg. destruct (read_lines _ _ _ _) as [[g' ps]|e [g' ps]]; [|done].
  intros [= <-]. eauto.
Qed.

(** A finished loop is finished from any line number and any set of
    players, with the same game and the same players added. *)
Lemma read_lines_done_indep lines : ∀ n g ps g' ps',
  read_lines py_float n lines (g, ps) = Done (g', ps') →
  ∃ added,
    ps' = added ∪ ps
    ∧ ∀ m ps0, read_lines py_float m lines (g, ps0) = Done (g', added ∪ ps0).
Proof.
  induction lines as [|raw lines IH]; intros n g ps g' ps' Hrun.
  { injection Hrun as <- <-. exists ∅. split; [by rewrite (left_id_L ∅ (∪))|].
    intros m ps0. simpl. by rewrite (left_id_L ∅ (∪)). }
  simpl in Hrun.
  destruct (read_line_shape py_float raw)
    as [[_ Hline]|[(name & paths & Hline)|[(node_path & node & Hw & Hf & Hline)
       |[Hline|(node_path & _ & Hline)]]]].
  - rewrite Hline in Hrun. destruct (IH _ _ _ _ _ Hrun) as (added & -> & Hall).
    exists added. split; [done|]. intros m ps0. simpl. rewrite Hline. apply Hall.
  - rewrite Hline in Hrun. destruct (IH _ _ _ _ _ Hrun) as (added & -> & Hall).
    exists added. split; [done|]. intros m ps0. simpl. rewrite Hline. apply Hall.
  - rewrite Hline in Hrun. destruct (IH _ _ _ _ _ Hrun) as (added & -> & Hall).
    exists (added ∪ node_players node).
    split; [by rewrite (assoc_L (∪))|].
    intros m ps0. simpl. rewrite Hline. simpl. rewrite Hall.
    by rewrite (assoc_L (∪)).
  - destruct (Hline n g ps) as (e & He & _). by rewrite He in Hrun.
  - destruct (Hline n g ps) as (e & He & _). by rewrite He in Hrun.
Qed.

(** Assigning [players] before the loop or after it is the same. *)
Lemma read_lines_set_players lines players : ∀ n g ps g' ps',
  read_lines py_float n lines (g, ps) = Done (g', ps') →
  read_lines py_float n lines (set_players players g, ps)
  = Done (set_players players g', ps').
Proof.
  induction lines as [|raw lines IH]; intros n g ps g' ps' Hrun.
  { by injection Hrun as <- <-. }
  simpl in *.
  destruct (read_line_shape py_float raw)
    as [[_ Hline]|[(name & paths & Hline)|[(node_path & node & Hw & Hf & Hline)
       |[Hline|(node_path & _ & Hline)]]]].
  - rewrite Hline in *. simpl. by apply IH.
  - rewrite !Hline in *. simpl. by apply (IH _ (add_infoset name paths g)).
  - rewrite !Hline in *. simpl.
    by apply (IH _ (set_node node_path node (append_order node_path g))).
  - destruct (Hline n g ps) as (e & He & _). by rewrite He in Hrun.
  - destruct (Hline n g ps) as (e & He & _). by rewrite He in Hrun.
Qed.

Lemma elem_of_sorted_players (ps : gset Z) q :
  q ∈ merge_sort Z.le (elements ps) ↔ q ∈ ps.
Proof. by rewrite merge_sort_Permutation, elem_of_elements. Qed.

End loader_files.

(** ** What a caller of the loader can rely on *)

Section loader_properties.
Import parser shapes.
Context {float : Type} (py_float : string → option float).
Local Abbreviation Game := (Game (float := float)).
Local Abbreviation Node := (Node (float := float)).
Implicit Types (g self : Game) (ps : gset Z) (e : exn) (raw : string)
  (lines : list string).

Lemma read_line_done_any_number raw n m st st' :
  read_line py_float n raw st = Done st' → read_line py_float m raw st = Done st'.
Proof.
  destruct st as [g ps]. intros Hrun.
  destruct (read_line_shape py_float raw)
    as [[_ Hline]|[(name & paths & Hline)|[(node_path & node & Hw & Hf & Hline)
       |[Hline|(node_path & _ & Hline)]]]];
    try (rewrite Hline in *; done).
  - destruct (Hline n g ps) as (e & He & _). by rewrite He in Hrun.
  - destruct (Hline n g ps) as (e & He & _). by rewrite He in Hrun.
Qed.

Lemma read_lines_skip_blank lines : ∀ n m st st',
  read_lines py_float n lines st = Done st'
  ↔ read_lines py_float m (filter (λ raw, strip raw ≠ EmptyString) lines) st
    = Done st'.
Proof.
  induction lines as [|raw lines IH]; intros n m st st'; [done|].
  destruct (decide (strip raw = EmptyString)) as [Hblank|Hblank].
  - rewrite filter_cons_False by (by intros ?). simpl.
    unfold read_line at 1. rewrite decide_True by done. simpl. apply IH.
  - rewrite filter_cons_True by done. simpl.
    destruct (read_line py_float n raw st) as [st1|e st1] eqn:Hn.
    + rewrite (read_line_done_any_number raw n m st st1 Hn). simpl. apply IH.
    + destruct (read_line py_float m raw st) as [st1'|e' st1'] eqn:Hm; [|done].
      by rewrite (read_line_done_any_number raw m n st st1' Hm) in Hn.
Qed.

(** X1: [read_efg] finishes on a file exactly when it finishes on the
    file without its blank lines, and with the same game. *)
Theorem read_efg_ignores_blank_lines lines self g :
  read_efg py_float lines self = Done g
  ↔ read_efg py_float (filter (λ raw, strip raw ≠ EmptyString) lines) self
    = Done g.
Proof.
  unfold read_efg.
  pose proof (read_lines_skip_blank lines 1 1 (self, ∅)) as Hskip.
  destruct (read_lines py_float 1 lines (self, ∅)) as [st1|e1 [g1 ps1]] eqn:Hall.
  - by rewrite (proj1 (Hskip st1) eq_refl).
  - destruct (read_lines py_float 1 (filter _ lines) (self, ∅))
      as [st2|e2 [g2 ps2]] eqn:Hfiltered; [|done].
    by pose proof (proj2 (Hskip st2) eq_refl).
Qed.

(** A description that is rejected leaves the game as it was. *)
Lemma read_node_raised n node_path rest g ps e g' ps' :
  read_node py_float n node_path rest (g, ps) = Raised e (g', ps') → g' = g.
Proof.
  unfold read_node.
  destruct (startswith "chance actions " rest).
  { destruct (chance_actions _ _ _ _ _) as [e'|[??]]; simpl;
      [by intros [= _ <- _] | done]. }
  destruct (startswith "leaf payoffs " rest).
  { destruct (leaf_payoffs _ _ _ _ _) as [e'|[??]]; simpl;
      [by intros [= _ <- _] | done]. }
  destruct (startswith "player " rest); [|by intros [= _ <- _]].
  destruct (split_once _ _) as [[??]|]; [|by intros [= _ <- _]].
  destruct (py_int _); [done | by intros [= _ <- _]].
Qed.

(** A rejected line leaves the game as it was, with its path appended
    to [order] when it is a node line with a path and a description. *)
Lemma read_line_raised_state n raw g ps e g' ps' :
  read_line py_float n raw (g, ps) = Raised e (g', ps') →
  g' = match node_line_path raw with
       | Some node_path => append_order node_path g
       | None => g
       end.
Proof.
  unfold read_line, node_line_path. cbv zeta. case_decide as Hblank; [done|].
  destruct (startswith "infoset " _).
  { destruct (split_once _ _) as [[??]|]; [done | by intros [= _ <- _]]. }
  destruct (startswith "node " _); [|by intros [= _ <- _]].
  destruct (split_maxsplit1 _) as [|node_path [|rest [|??]]];
    try (by intros [= _ <- _]).
  cbn [fst snd]. apply read_node_raised.
Qed.

(** X2: when [read_efg] raises, the exception is that of the first
    rejected line, read in the state the lines before it produced;
    [players] is what it was and the game is what those lines made of
    it, with the path of the rejected line appended to [order] when it
    is a node line with a path and a description. *)
Theorem read_efg_failure_state lines self e g :
  read_efg py_float lines self = Raised e g →
  ∃ i raw g0 ps0 ps',
    lines !! i = Some raw
    ∧ read_lines py_float 1 (take i lines) (self, ∅) = Done (g0, ps0)
    ∧ read_line py_float (S i) raw (g0, ps0) = Raised e (g, ps')
    ∧ players g = players self
    ∧ g = match node_line_path raw with
          | Some node_path => append_order node_path g0
          | None => g0
          end.
Proof.
  unfold read_efg.
  destruct (read_lines py_float 1 lines (self, ∅)) as [[??]|e' [g' ps']] eqn:Hrun;
    [done|]. intros [= <- <-].
  apply read_lines_raised in Hrun as (i & raw & [g0 ps0] & Hi & Hpre & Hfail).
  exists i, raw, g0, ps0, ps'. split; [done|]. split; [done|]. split; [done|].
  assert (players g0 = players self) as Hplayers.
  { apply (read_lines_done_invariant py_float
             (λ g _, players g = players self) (take i lines))
      with (n := 1%nat) (g := self) (ps := ∅) (ps' := ps0); done. }
  pose proof (read_line_raised_state _ _ _ _ _ _ _ Hfail) as Hstate.
  split; [|done]. rewrite Hstate. by destruct (node_line_path raw).
Qed.

(** X3: however [read_efg] ends, the path of every stored node is in
    [order], if that was so before the call. *)
Theorem read_efg_nodes_listed_in_order lines self :
  (∀ node_path, is_Some (nodes self !! node_path) → node_path ∈ order self) →
  ∀ node_path,
    is_Some (nodes (final (read_efg py_float lines self)) !! node_path) →
    node_path ∈ order (final (read_efg py_float lines self)).
Proof.
  intros Hself.
  apply (read_efg_final_invariant py_float
           (λ g, ∀ p, is_Some (nodes g !! p) → p ∈ order g)); try done.
  - intros g p _ Hg q Hq. simpl. apply elem_of_app. left. by apply Hg.
  - intros g p node _ _ Hg q. simpl. intros Hq.
    destruct (decide (q = p)) as [->|Hne].
    + apply elem_of_app. right. by left.
    + rewrite lookup_insert_ne in Hq by done.
      apply elem_of_app. left. by apply Hg.
Qed.

(** X4: when [read_efg] finishes, every path of [order] has a node, if
    that was so before the call. *)
Theorem read_efg_order_has_nodes lines self g :
  (∀ node_path, node_path ∈ order self → is_Some (nodes self !! node_path)) →
  read_efg py_float lines self = Done g →
  ∀ node_path, node_path ∈ order g → is_Some (nodes g !! node_path).
Proof.
  intros Hself (g' & ps & Hrun & ->)%read_efg_done_inv. simpl.
  apply (read_lines_done_invariant py_float
           (λ g _, ∀ p, p ∈ order g → is_Some (nodes g !! p)) lines)
    with (n := 1%nat) (g := self) (ps := ∅) (ps' := ps); try done.
  intros g ps0 p node _ _ Hg q. simpl.
  intros [Hq|Hq%list_elem_of_singleton]%elem_of_app.
  - destruct (decide (q = p)) as [->|Hne].
    + rewrite lookup_insert_eq. by eexists.
    + rewrite lookup_insert_ne by done. by apply Hg.
  - subst q. rewrite lookup_insert_eq. by eexists.
Qed.

Lemma lookup_foldl_insert (m0 : gmap string string) (v : string) keys k :
  foldl (λ m key, <[key := v]> m) m0 keys !! k
  = if decide (k ∈ keys) then Some v else m0 !! k.
Proof.
  revert m0. induction keys as [|key keys IH]; intros m0.
  { destruct (decide (k ∈ [])) as [Hk|Hk]; [by apply elem_of_nil in Hk | done]. }
  cbn [foldl]. rewrite IH.
  destruct (decide (k ∈ keys)) as [Hin|Hin];
    destruct (decide (k ∈ key :: keys)) as [Hin'|Hin']; try done.
  - exfalso. apply Hin'. by right.
  - apply elem_of_cons in Hin' as [->|?]; [|done]. by rewrite lookup_insert_eq.
  - rewrite lookup_insert_ne; [done|]. intros ->. apply Hin'. by left.
Qed.

(** X5: [read_efg] only adds: however it ends, [order] starts with the
    old [order] and every key of the three tables is still a key. *)
Theorem read_efg_only_adds lines self :
  order self `prefix_of` order (final (read_efg py_float lines self))
  ∧ (∀ node_path,
       is_Some (nodes self !! node_path) →
       is_Some (nodes (final (read_efg py_float lines self)) !! node_path))
  ∧ (∀ infoset_name,
       is_Some (infosets self !! infoset_name) →
       is_Some (infosets (final (read_efg py_float lines self)) !! infoset_name))
  ∧ (∀ node_path,
       is_Some (hist_to_infoset self !! node_path) →
       is_Some (hist_to_infoset (final (read_efg py_float lines self))
                !! node_path)).
Proof.
  apply (read_efg_final_invariant py_float
           (λ g, order self `prefix_of` order g
                 ∧ (∀ p, is_Some (nodes self !! p) → is_Some (nodes g !! p))
                 ∧ (∀ i, is_Some (infosets self !! i) → is_Some (infosets g !! i))
                 ∧ (∀ p, is_Some (hist_to_infoset self !! p)
                         → is_Some (hist_to_infoset g !! p)))); try done.
  - intros g name paths (Ho & Hn & Hi & Hh). repeat split; try done.
    + intros i Hin. simpl. destruct (decide (i = name)) as [->|Hne].
      * rewrite lookup_insert_eq. by eexists.
      * rewrite lookup_insert_ne by done. by apply Hi.
    + intros p Hp. simpl. rewrite lookup_foldl_insert.
      case_decide; [by eexists | by apply Hh].
  - intros g p _ (Ho & Hn & Hi & Hh). repeat split; try done.
    simpl. by apply prefix_app_r.
  - intros g p node _ _ (Ho & Hn & Hi & Hh). repeat split; try done.
    + simpl. by apply prefix_app_r.
    + intros q Hq. simpl. destruct (decide (q = p)) as [->|Hne].
      * rewrite lookup_insert_eq. by eexists.
      * rewrite lookup_insert_ne by done. by apply Hn.
Qed.

(** X6: when [read_efg] finishes, [players] is in ascending order and
    has no repetition, whatever it held before. *)
Theorem read_efg_players_sorted lines self g :
  read_efg py_float lines self = Done g →
  StronglySorted Z.le (players g) ∧ NoDup (players g).
Proof.
  intros (g' & ps & _ & ->)%read_efg_done_inv. simpl. split.
  - apply StronglySorted_merge_sort; apply _.
  - rewrite merge_sort_Permutation. apply NoDup_elements.
Qed.

(** X7: when [read_efg] finishes on a game that had no node, the owner
    of every stored player node and every player with a payoff at a
    stored leaf is in [players]. *)
Theorem read_efg_players_cover_nodes lines self g :
  nodes self = ∅ →
  read_efg py_float lines self = Done g →
  ∀ node_path node,
    nodes g !! node_path = Some node →
    (∀ q, player node = Some q → q ∈ players g)
    ∧ (∀ q, is_Some (payoffs node !! q) → q ∈ players g).
Proof.
  intros Hempty (g' & ps & Hrun & ->)%read_efg_done_inv p node Hnode.
  simpl in *.
  assert (node_players node ⊆ ps) as Hsub.
  { revert p node Hnode.
    apply (read_lines_done_invariant py_float
             (λ g ps, ∀ p node, nodes g !! p = Some node → node_players node ⊆ ps)
             lines) with (n := 1%nat) (g := self) (ps := ∅) (g' := g'); try done.
    - intros g ps0 p0 node0 _ _ Hg p node. simpl.
      destruct (decide (p = p0)) as [->|Hne].
      + rewrite lookup_insert_eq. intros [= <-]. set_solver.
      + rewrite lookup_insert_ne by done. intros Hp.
        specialize (Hg p node Hp). set_solver.
    - intros p node. by rewrite Hempty, lookup_empty. }
  split; intros q Hq; apply elem_of_sorted_players, Hsub; unfold node_players.
  - rewrite Hq. set_solver.
  - apply elem_of_union_r. by apply elem_of_dom.
Qed.

(** X8: however [read_efg] ends, every stored node has its path as
    [path] and one of the three forms: a chance node with a probability
    for each of its actions and no other, a leaf, or a player node with
    an owner and words for actions; if that was so before the call. *)
Theorem read_efg_node_forms lines self :
  (∀ node_path node, nodes self !! node_path = Some node →
                     node_form node_path node) →
  ∀ node_path node,
    nodes (final (read_efg py_float lines self)) !! node_path = Some node →
    node_form node_path node.
Proof.
  intros Hself.
  apply (read_efg_final_invariant py_float
           (λ g, ∀ p (node : Node), nodes g !! p = Some node → node_form p node));
    try done.
  intros g p0 node0 _ Hform Hg p node. simpl.
  destruct (decide (p = p0)) as [->|Hne].
  - rewrite lookup_insert_eq. by intros [= <-].
  - rewrite lookup_insert_ne by done. apply Hg.
Qed.

(** X9: however [read_efg] ends, the two tables of information sets
    agree, if they did before the call. *)
Theorem read_efg_infoset_index lines self :
  infoset_index self → infoset_index (final (read_efg py_float lines self)).
Proof.
  apply (read_efg_final_invariant py_float infoset_index); try done.
  intros g name paths [Hhist Hsets]. split; simpl.
  - intros p i. rewrite lookup_foldl_insert. case_decide as Hp.
    + intros [= <-]. rewrite lookup_insert_eq. by eexists.
    + intros Hi. destruct (decide (i = name)) as [->|Hne].
      * rewrite lookup_insert_eq. by eexists.
      * rewrite lookup_insert_ne by done. by eapply Hhist.
  - intros i infoset. destruct (decide (i = name)) as [->|Hne].
    + rewrite lookup_insert_eq. intros [= <-]. split; [done|]. simpl.
      intros p Hp. rewrite lookup_foldl_insert.
      rewrite decide_True by done. by eexists.
    + rewrite lookup_insert_ne by done. intros Hi.
      destruct (Hsets i infoset Hi) as [Hname Hin]. split; [done|].
      intros p Hp. rewrite lookup_foldl_insert.
      case_decide; [by eexists | by apply Hin].
Qed.

(** X10: however [read_efg] ends, every path it appended to [order] is
    a word: not empty and without white space. *)
Theorem read_efg_paths_are_words lines self :
  ∀ node_path,
    node_path ∈ order (final (read_efg py_float lines self)) →
    node_path ∈ order self ∨ is_word node_path.
Proof.
  apply (read_efg_final_invariant py_float
           (λ g, ∀ p, p ∈ order g → p ∈ order self ∨ is_word p)); try done.
  - intros g p Hw Hg q. simpl.
    intros [Hq|Hq%list_elem_of_singleton]%elem_of_app;
      [by apply Hg | subst q; by right].
  - intros g p node Hw _ Hg q. simpl.
    intros [Hq|Hq%list_elem_of_singleton]%elem_of_app;
      [by apply Hg | subst q; by right].
  - by left.
Qed.

Lemma set_players_own g : set_players (players g) g = g.
Proof. by destruct g. Qed.

(** Whether a file is accepted, and the players it adds, do not depend
    on the game it is loaded into. *)
Lemma read_lines_done_any_game lines : ∀ n g ps g' ps',
  read_lines py_float n lines (g, ps) = Done (g', ps') →
  ∃ added,
    ps' = added ∪ ps
    ∧ ∀ m h ps0, ∃ h', read_lines py_float m lines (h, ps0) = Done (h', added ∪ ps0).
Proof.
  induction lines as [|raw lines IH]; intros n g ps g' ps' Hrun.
  { injection Hrun as <- <-. exists ∅. split; [by rewrite (left_id_L ∅ (∪))|].
    intros m h ps0. exists h. simpl. by rewrite (left_id_L ∅ (∪)). }
  simpl in Hrun.
  destruct (read_line_shape py_float raw)
    as [[_ Hline]|[(name & paths & Hline)|[(node_path & node & Hw & Hf & Hline)
       |[Hline|(node_path & _ & Hline)]]]].
  - rewrite Hline in Hrun. destruct (IH _ _ _ _ _ Hrun) as (added & -> & Hall).
    exists added. split; [done|]. intros m h ps0. simpl. rewrite Hline. apply Hall.
  - rewrite Hline in Hrun. destruct (IH _ _ _ _ _ Hrun) as (added & -> & Hall).
    exists added. split; [done|]. intros m h ps0. simpl. rewrite Hline. apply Hall.
  - rewrite Hline in Hrun. destruct (IH _ _ _ _ _ Hrun) as (added & -> & Hall).
    exists (added ∪ node_players node).
    split; [by rewrite (assoc_L (∪))|].
    intros m h ps0. simpl. rewrite Hline. simpl.
    rewrite <-(assoc_L (∪)). apply Hall.
  - destruct (Hline n g ps) as (e & He & _). by rewrite He in Hrun.
  - destruct (Hline n g ps) as (e & He & _). by rewrite He in Hrun.
Qed.

(** X11: two calls of [read_efg] on the same object, one file after the
    other, leave the nodes, the order and the information sets that one
    call on the two files in a row leaves.  [players] differs: after the
    second call it holds the players of the second file only, those the
    file leaves in [players] of any object it is loaded into, while the
    single call leaves the players of both files. *)
Theorem read_efg_sequential lines1 lines2 self g1 g2 :
  read_efg py_float lines1 self = Done g1 →
  read_efg py_float lines2 g1 = Done g2 →
  (∃ g,
     read_efg py_float (lines1 ++ lines2) self = Done g
     ∧ nodes g = nodes g2
     ∧ order g = order g2
     ∧ infosets g = infosets g2
     ∧ hist_to_infoset g = hist_to_infoset g2
     ∧ ∀ q, q ∈ players g ↔ q ∈ players g1 ∨ q ∈ players g2)
  ∧ ∀ other,
      ∃ g', read_efg py_float lines2 other = Done g' ∧ players g' = players g2.
Proof.
  intros (g1' & ps1 & Hrun1 & ->)%read_efg_done_inv
         (g2' & ps2 & Hrun2 & ->)%read_efg_done_inv.
  split.
  - apply (read_lines_set_players py_float _ (players g1')) in Hrun2.
    replace (set_players (players g1') (set_players _ g1')) with g1'
      in Hrun2 by (by destruct g1').
    apply read_lines_done_indep in Hrun2 as (added & -> & Hany).
    unfold read_efg. rewrite read_lines_app, Hrun1. simpl.
    rewrite (Hany _ ps1). eexists. split; [done|]. repeat split.
    + simpl. rewrite !elem_of_sorted_players. set_solver.
    + simpl. rewrite !elem_of_sorted_players. set_solver.
  - intros other.
    apply read_lines_done_any_game in Hrun2 as (added & -> & Hany).
    destruct (Hany 1%nat other ∅) as [h' Hh']. unfold read_efg. rewrite Hh'.
    eexists. split; [done|]. done.
Qed.

End loader_properties.

(** ** What a caller of the solver can rely on *)

Section outcome_facts.
Context {E S A B : Type} (f : S → B).

Lemma final_and_then_preserved (o : outcome E S) (k : S → outcome E S) s :
  f (final o) = f s → (∀ s1, f (final (k s1)) = f s1) →
  f (final (and_then o k)) = f s.
Proof. destruct o as [s1|e s1]; simpl; [|done]. intros <- Hk. apply Hk. Qed.

Lemma final_eval_preserved {C} (r : E + C) s (k : C → outcome E S) :
  (∀ c, f (final (k c)) = f s) → f (final (eval r s k)) = f s.
Proof. destruct r as [e|c]; simpl; [done|]. intros Hk. apply Hk. Qed.

Lemma for_each_final_preserved (body : A → S → outcome E S) l :
  (∀ a s, f (final (body a s)) = f s) →
  ∀ s, f (final (for_each body l s)) = f s.
Proof.
  intros Hbody. induction l as [|a l IH]; intros s; [done|]. simpl.
  apply final_and_then_preserved; [apply Hbody | apply IH].
Qed.

End outcome_facts.

Section solver_properties.
Context {bnode action : Type} `{Countable bnode} `{Countable action}.
Local Abbreviation Dag := (Dag (bnode := bnode) (action := action)).
Local Abbreviation DagRegMin := (DagRegMin (bnode := bnode) (action := action)).
Local Abbreviation key := (key (bnode := bnode) (action := action)).
Implicit Types (dag : Dag) (s : DagRegMin) (k : key) (n node : bnode)
  (a : action) (acts : list action) (d : gmap action Qc).

Lemma setitem_x_prime_regret n a (v : Qc) s :
  regret (final (setitem_x_prime n a v s)) = regret s.
Proof. unfold setitem_x_prime. by apply final_eval_preserved. Qed.

Lemma reset_node_regret dag node s :
  regret (final (reset_node dag node s)) = regret s.
Proof.
  unfold reset_node. cbv zeta.
  change (regret s)
    with (regret (set_x_prime (KNode node) ∅ (set_x (KNode node) XDict s))).
  apply final_eval_preserved.
  intros acts. apply (for_each_final_preserved regret).
  intros a s1. unfold reset_action. by rewrite setitem_x_prime_regret.
Qed.

Lemma strategy_action_regret dag node (S : Qc) a s :
  regret (final (strategy_action dag node S a s)) = regret s.
Proof.
  unfold strategy_action. apply final_eval_preserved. intros p.
  apply final_and_then_preserved; [apply setitem_x_prime_regret|].
  intros s1. apply final_eval_preserved. intros p'.
  by apply final_eval_preserved.
Qed.

Lemma strategy_node_regret dag node s :
  regret (final (strategy_node dag node s)) = regret s.
Proof.
  unfold strategy_node. apply final_and_then_preserved.
  - unfold reach_node. case_decide; [|done].
    apply final_eval_preserved. intros parents.
    by apply final_eval_preserved.
  - intros s1. apply final_eval_preserved. intros acts.
    apply final_eval_preserved. intros S.
    apply (for_each_final_preserved regret). intros a s2.
    apply strategy_action_regret.
Qed.

(** X13: [next_strategy] never changes a regret, whether it returns or
    raises. *)
Theorem next_strategy_keeps_regret dag s :
  regret (final (next_strategy dag s)) = regret s.
Proof.
  unfold next_strategy. apply final_and_then_preserved.
  - apply (for_each_final_preserved regret). intros n s1.
    apply reset_node_regret.
  - intros s1. apply (for_each_final_preserved regret). intros n s2.
    apply strategy_node_regret.
Qed.

(** X14: [next_strategy] raises whenever an active node with an action
    has no entry in [regret]; on a new solver, whose [regret] is empty,
    it raises on every DAG with such a node. *)
Theorem next_strategy_needs_regret dag s n a acts :
  regret s !! n = None →
  n ∈ active_nodes dag →
  child_of dag !! n = Some (a :: acts) →
  ∃ e s', next_strategy dag s = Raised e s'.
Proof.
  intros Hregret Hn Hacts.
  destruct (next_strategy dag s) as [s'|e s'] eqn:Hrun; [|by eauto].
  exfalso. apply next_strategy_inv in Hrun as (s0 & Hreset & Hloop).
  apply reset_loop_spec in Hreset as (Hreg0 & _).
  apply list_elem_of_split in Hn as (pre & post & Hl). rewrite Hl in Hloop.
  apply for_each_split in Hloop as (sa & sb & Hpre & Hnode & _).
  apply strategy_loop_frame in Hpre as (Hrega & _).
  apply strategy_node_spec in Hnode
    as (_ & _ & _ & _ & _ & acts' & S & Hacts' & HS & _).
  rewrite Hacts in Hacts'. injection Hacts' as <-.
  unfold positive_regret_sum in HS. simpl in HS.
  unfold get_regret, getnode in HS. by rewrite Hrega, Hreg0, Hregret in HS.
Qed.

(** X15: after a [next_strategy] that returns, the table [x] is in
    sequence form at every active node: [x[(node, a)]] is
    [x_prime[node][a] * x[node]] for each action, when no active node is
    listed twice. *)
Theorem next_strategy_sequence_form dag s s' n acts a :
  next_strategy dag s = Done s' →
  NoDup (active_nodes dag) →
  n ∈ active_nodes dag →
  child_of dag !! n = Some acts →
  a ∈ acts →
  ∃ p v,
    get_x_prime s' n a = inr p
    ∧ x s' !! KNode n = Some (XNum v)
    ∧ x s' !! KSeq n a = Some (XNum (p * v)).
Proof.
  intros (s0 & _ & Hloop)%next_strategy_inv Hnodup Hn Hacts Ha.
  apply list_elem_of_split in Hn as (pre & post & Hl).
  destruct (active_node_final _ _ _ _ _ _ Hl Hnodup Hloop)
    as (_ & _ & _ & _ & _ & _ & acts' & S & Hacts' & _ & Hin).
  rewrite Hacts in Hacts'. injection Hacts' as <-.
  destruct (Hin a Ha) as (p & v & _ & Hp & Hv & Hseq). eauto.
Qed.

Lemma py_max_0_nonpositive (r : Qc) : r ≤ 0 → py.max r 0 = 0.
Proof.
  intros Hr. unfold py.max. case_decide as Hlt; [done|].
  apply Qcnot_lt_le in Hlt. by apply Qcle_antisym.
Qed.

(** Without a positive regret the sum [S] is 0. *)
Lemma positive_regret_sum_zero s n acts :
  (∀ a, a ∈ acts → ∃ r, get_regret s n a = inr r ∧ r ≤ 0) →
  positive_regret_sum s n acts = inr 0.
Proof.
  intros Hneg. unfold positive_regret_sum.
  rewrite (sum_from_const _ 0).
  - f_equal. ring.
  - intros a Ha. destruct (Hneg a Ha) as (r & -> & Hr).
    by rewrite py_max_0_nonpositive.
Qed.

(** What the last pass over an active node leaves is final, also when
    the node is listed more than once. *)
Lemma active_node_last dag n s0 s' :
  n ∈ active_nodes dag →
  for_each (strategy_node dag) (active_nodes dag) s0 = Done s' →
  ∃ acts S,
    child_of dag !! n = Some acts
    ∧ positive_regret_sum s0 n acts = inr S
    ∧ ∀ a, a ∈ acts →
        ∃ p v,
          matched_probability dag s0 n S a = inr p
          ∧ get_x_prime s' n a = inr p
          ∧ x s' !! KNode n = Some (XNum v)
          ∧ x s' !! KSeq n a = Some (XNum (p * v)).
Proof.
  intros (pre & post & Hl & Hnpost)%list_elem_of_split_r Hrun.
  rewrite Hl in Hrun.
  apply for_each_split in Hrun as (sa & sb & Hpre & Hn & Hpost).
  pose proof (strategy_loop_frame _ _ _ _ Hpre) as (Hrega & _).
  pose proof (strategy_node_spec _ _ _ _ Hn)
    as (_ & _ & _ & _ & _ & acts & S & Hacts & HS & Hin).
  pose proof (strategy_loop_frame _ _ _ _ Hpost) as (_ & Hxp & Hxpp & _).
  assert (∀ k, k = KNode n ∨ (∃ a, k = KSeq n a) → x s' !! k = x sb !! k) as Hkeep.
  { intros k Hk. apply Hxp. intros m Hm.
    destruct Hk as [->|[a ->]]; (split; [|intros a']); congruence. }
  exists acts, S. split; [done|].
  split; [by rewrite <-(positive_regret_sum_regret sa s0)|].
  intros a Ha. destruct (Hin a Ha) as (p & v & Hp & Hget & Hv & Hseq).
  exists p, v. split; [by rewrite <-(matched_probability_regret dag sa s0)|].
  split.
  { unfold get_x_prime, getitem in *. rewrite Hxpp; [done|].
    intros m Hm [= ->]. done. }
  split; rewrite Hkeep; eauto.
Qed.

(** The probabilities a finished [next_strategy] leaves at an active
    node, from the regrets it started with. *)
Lemma next_strategy_matched dag s s' n :
  next_strategy dag s = Done s' →
  n ∈ active_nodes dag →
  ∃ acts S,
    child_of dag !! n = Some acts
    ∧ positive_regret_sum s n acts = inr S
    ∧ ∀ a, a ∈ acts →
        ∃ v,
          get_x_prime s' n a = inr (if decide (S = 0) then 1 / len acts else 0)
          ∧ x s' !! KNode n = Some (XNum v)
          ∧ x s' !! KSeq n a
            = Some (XNum ((if decide (S = 0) then 1 / len acts else 0) * v)).
Proof.
  intros (s0 & Hreset & Hloop)%next_strategy_inv Hn.
  apply reset_loop_spec in Hreset as (Hreg0 & _).
  destruct (active_node_last _ _ _ _ Hn Hloop) as (acts & S & Hacts & HS & Hin).
  rewrite (positive_regret_sum_regret s0 s) in HS by done.
  exists acts, S. split; [done|]. split; [done|].
  intros a Ha. destruct (Hin a Ha) as (p & v & Hp & Hget & Hv & Hseq).
  rewrite (matched_probability_regret dag s0 s) in Hp by done.
  assert (p = if decide (S = 0) then 1 / len acts else 0) as <-; [|by eauto].
  unfold matched_probability in Hp. case_decide as HS0.
  - unfold getnode in Hp. rewrite Hacts in Hp. by injection Hp.
  - destruct (get_regret s n a) as [e|r] eqn:Hr; [done|]. injection Hp as <-.
    apply shifted_regret_zero. by eapply regret_le_positive_regret_sum.
Qed.

(** X16: the uniform fallback: when no action of an active node has a
    positive regret, a [next_strategy] that returns leaves in
    [x_prime[node][a]] the quotient [1 / len(child_of[node])] for every
    action [a] of the node. *)
Theorem next_strategy_uniform_fallback dag s s' n acts :
  next_strategy dag s = Done s' →
  n ∈ active_nodes dag →
  child_of dag !! n = Some acts →
  (∀ a, a ∈ acts → ∃ r, get_regret s n a = inr r ∧ r ≤ 0) →
  ∀ a, a ∈ acts → get_x_prime s' n a = inr (1 / len acts).
Proof.
  intros Hrun Hn Hacts Hneg a Ha.
  pose proof (positive_regret_sum_zero s n acts Hneg) as Hzero.
  destruct (next_strategy_matched dag s s' n Hrun Hn)
    as (acts' & S & Hacts' & HS & Hin).
  rewrite Hacts in Hacts'. injection Hacts' as <-.
  rewrite Hzero in HS. injection HS as <-.
  destruct (Hin a Ha) as (v & Hp & _). by rewrite decide_True in Hp.
Qed.

(** X17: under the uniform fallback every action carries the same share
    of the reach of its node: when no action of an active node has a
    positive regret, a [next_strategy] that returns leaves in
    [x[(node, a)]] the product of [1 / len(child_of[node])] and
    [x[node]], for every action [a] of the node. *)
Theorem next_strategy_even_shares dag s s' n acts :
  next_strategy dag s = Done s' →
  n ∈ active_nodes dag →
  child_of dag !! n = Some acts →
  (∀ a, a ∈ acts → ∃ r, get_regret s n a = inr r ∧ r ≤ 0) →
  ∀ a, a ∈ acts →
    ∃ v,
      x s' !! KNode n = Some (XNum v)
      ∧ x s' !! KSeq n a = Some (XNum (1 / len acts * v)).
Proof.
  intros Hrun Hn Hacts Hneg a Ha.
  pose proof (positive_regret_sum_zero s n acts Hneg) as Hzero.
  destruct (next_strategy_matched dag s s' n Hrun Hn)
    as (acts' & S & Hacts' & HS & Hin).
  rewrite Hacts in Hacts'. injection Hacts' as <-.
  rewrite Hzero in HS. injection HS as <-.
  destruct (Hin a Ha) as (v & _ & Hv & Hseq). rewrite decide_True in Hseq by done.
  eauto.
Qed.

(** X18: a node of [dag.nodes] that is not an active node leaves a
    [next_strategy] that returns with [x[node] = 1], or with the empty
    dictionary when it has no action, as a terminal node has. *)
Theorem next_strategy_inactive_reach dag s s' n :
  next_strategy dag s = Done s' →
  n ∈ nodes dag →
  n ∉ active_nodes dag →
  ∃ acts,
    child_of dag !! n = Some acts
    ∧ x s' !! KNode n = Some (if acts is [] then XDict else XNum 1).
Proof.
  intros (s0 & Hreset & Hloop)%next_strategy_inv Hn Hinactive.
  apply reset_loop_spec in Hreset as (_ & _ & Hnodes).
  destruct (Hnodes n Hn) as (acts & d & Hacts & Hx & _).
  apply strategy_loop_frame in Hloop as (_ & Hframe & _).
  exists acts. split; [done|]. rewrite Hframe; [done|].
  intros m Hm. split; [|done]. intros [= ->]. done.
Qed.

(** X19: the strategy is a function of the regrets: two calls of
    [next_strategy] that return, on solvers with the same regrets, give
    every action of an active node the same probability, whatever [x]
    and [x_prime] held before. *)
Theorem next_strategy_strategy_from_regret dag s t s' t' n acts a :
  regret s = regret t →
  next_strategy dag s = Done s' →
  next_strategy dag t = Done t' →
  n ∈ active_nodes dag →
  child_of dag !! n = Some acts →
  a ∈ acts →
  get_x_prime s' n a = get_x_prime t' n a.
Proof.
  intros Hregret Hs Ht Hn Hacts Ha.
  destruct (next_strategy_matched dag s s' n Hs Hn)
    as (acts1 & S1 & Hacts1 & HS1 & Hin1).
  destruct (next_strategy_matched dag t t' n Ht Hn)
    as (acts2 & S2 & Hacts2 & HS2 & Hin2).
  rewrite Hacts in Hacts1, Hacts2.
  injection Hacts1 as <-. injection Hacts2 as <-.
  rewrite (positive_regret_sum_regret s t) in HS1 by done.
  rewrite HS1 in HS2. injection HS2 as <-.
  destruct (Hin1 a Ha) as (v1 & -> & _). destruct (Hin2 a Ha) as (v2 & -> & _).
  done.
Qed.

End solver_properties.

(** ** The properties on the inputs *)

Section loader_witnesses.
Import parser shapes examples cases.

(** X2 on [coin_game_unknown_type], rejected at its second line. *)
Lemma read_efg_failure_state_witness :
  ∃ i raw g0 ps0 ps',
    coin_game_unknown_type !! i = Some raw
    ∧ read_lines float_of_digits 1 (take i coin_game_unknown_type)
        (Game_init, ∅) = Done (g0, ps0)
    ∧ read_line float_of_digits (S i) raw (g0, ps0)
      = Raised (ValueError_line 2 "Unknown node type in: decision 1 actions bet fold")
               (final (read_efg float_of_digits coin_game_unknown_type Game_init),
                ps')
    ∧ players (final (read_efg float_of_digits coin_game_unknown_type Game_init))
      = players (Game_init (float := Qc))
    ∧ final (read_efg float_of_digits coin_game_unknown_type Game_init)
      = match node_line_path raw with
        | Some node_path => append_order node_path g0
        | None => g0
        end.
Proof.
  eapply (read_efg_failure_state float_of_digits coin_game_unknown_type Game_init).
  vm_compute; reflexivity.
Defined.

(** X3 on [coin_game_unknown_type], whose second line is rejected. *)
Lemma read_efg_nodes_listed_in_order_witness :
  "/" ∈ order (final (read_efg float_of_digits coin_game_unknown_type Game_init)).
Proof.
  apply (read_efg_nodes_listed_in_order float_of_digits coin_game_unknown_type
           Game_init).
  - intros p [node Hnode]. vm_compute in Hnode. discriminate Hnode.
  - vm_compute. by eexists.
Defined.

(** X4 on [coin_game]. *)
Lemma read_efg_order_has_nodes_witness :
  is_Some (nodes (final (read_efg float_of_digits coin_game Game_init)) !! "/C:T").
Proof.
  apply (read_efg_order_has_nodes float_of_digits coin_game Game_init).
  - intros p Hp. vm_compute in Hp. by apply elem_of_nil in Hp.
  - vm_compute; reflexivity.
  - apply (bool_decide_unpack _). vm_compute. exact I.
Defined.

(** X6 on [coin_game]. *)
Lemma read_efg_players_sorted_witness :
  StronglySorted Z.le
    (players (final (read_efg float_of_digits coin_game Game_init)))
  ∧ NoDup (players (final (read_efg float_of_digits coin_game Game_init))).
Proof.
  apply (read_efg_players_sorted float_of_digits coin_game Game_init).
  vm_compute; reflexivity.
Defined.

(** X7 on the leaf of [coin_game]. *)
Lemma read_efg_players_cover_nodes_witness :
  ∃ node,
    nodes (final (read_efg float_of_digits coin_game Game_init)) !! "/C:H/P1:bet"
    = Some node
    ∧ (∀ q, player node = Some q →
            q ∈ players (final (read_efg float_of_digits coin_game Game_init)))
    ∧ (∀ q, is_Some (payoffs node !! q) →
            q ∈ players (final (read_efg float_of_digits coin_game Game_init))).
Proof.
  eexists. split; [vm_compute; reflexivity|].
  apply (read_efg_players_cover_nodes float_of_digits coin_game Game_init _
           eq_refl) with (node_path := "/C:H/P1:bet"); vm_compute; reflexivity.
Defined.

(** X8 on the chance node of [coin_game]. *)
Lemma read_efg_node_forms_witness :
  ∃ node,
    nodes (final (read_efg float_of_digits coin_game Game_init)) !! "/" = Some node
    ∧ node_form "/" node.
Proof.
  eexists. split; [vm_compute; reflexivity|].
  apply (read_efg_node_forms float_of_digits coin_game Game_init).
  - intros p node Hnode. vm_compute in Hnode. discriminate Hnode.
  - vm_compute; reflexivity.
Defined.

(** X9 on [coin_game]. *)
Lemma read_efg_infoset_index_witness :
  infoset_index (final (read_efg float_of_digits coin_game Game_init)).
Proof.
  apply (read_efg_infoset_index float_of_digits coin_game Game_init).
  split.
  - intros p i Hp. vm_compute in Hp. discriminate Hp.
  - intros i infoset Hi. vm_compute in Hi. discriminate Hi.
Defined.

(** X10 on [coin_game]. *)
Lemma read_efg_paths_are_words_witness :
  "/C:H" ∈ order (Game_init (float := Qc)) ∨ is_word "/C:H".
Proof.
  apply (read_efg_paths_are_words float_of_digits coin_game Game_init).
  apply (bool_decide_unpack _). vm_compute. exact I.
Defined.

(** X11 on [coin_game] followed by [coin_game_tails]. *)
Lemma read_efg_sequential_witness :
  (∃ g,
     read_efg float_of_digits (coin_game ++ coin_game_tails) Game_init = Done g
     ∧ nodes g
       = nodes (final (read_efg float_of_digits coin_game_tails
                         (final (read_efg float_of_digits coin_game Game_init))))
     ∧ order g
       = order (final (read_efg float_of_digits coin_game_tails
                         (final (read_efg float_of_digits coin_game Game_init))))
     ∧ infosets g
       = infosets (final (read_efg float_of_digits coin_game_tails
                            (final (read_efg float_of_digits coin_game Game_init))))
     ∧ hist_to_infoset g
       = hist_to_infoset
           (final (read_efg float_of_digits coin_game_tails
                     (final (read_efg float_of_digits coin_game Game_init))))
     ∧ ∀ q,
         q ∈ players g
         ↔ q ∈ players (final (read_efg float_of_digits coin_game Game_init))
           ∨ q ∈ players
                 (final (read_efg float_of_digits coin_game_tails
                           (final (read_efg float_of_digits coin_game Game_init)))))
  ∧ ∀ other,
      ∃ g',
        read_efg float_of_digits coin_game_tails other = Done g'
        ∧ players g'
          = players (final (read_efg float_of_digits coin_game_tails
                              (final (read_efg float_of_digits coin_game
                                        Game_init)))).
Proof.
  apply (read_efg_sequential float_of_digits coin_game coin_game_tails Game_init
           (final (read_efg float_of_digits coin_game Game_init)));
    vm_compute; reflexivity.
Defined.

(** X12 on [coin_game_broken], rejected at its third line. *)
Lemma read_efg_reported_line_witness :
  ∃ i raw st0 st',
    3%nat = S i ∧ coin_game_broken !! i = Some raw
    ∧ read_lines float_of_digits 1 (take i coin_game_broken) (Game_init, ∅)
      = Done st0
    ∧ read_line float_of_digits 3 raw st0
      = Raised (ValueError_line 3
                  "Expected line to start with 'node ' or 'infoset ', got: nodes /C:H player 1 actions bet fold")
               st'.
Proof.
  eapply (read_efg_reported_line float_of_digits coin_game_broken Game_init).
  - vm_compute; reflexivity.
  - reflexivity.
Defined.

End loader_witnesses.

Section solver_witnesses.
Import cases.
Local Open Scope positive_scope.

Lemma fork_run :
  next_strategy fork no_regret = Done (final (next_strategy fork no_regret)).
Proof. vm_compute; reflexivity. Qed.

Lemma fork_not_positive a :
  a ∈ [1; 2] → ∃ r, get_regret no_regret 1 a = inr r ∧ (r ≤ 0)%Qc.
Proof.
  intros [->|Ha]%elem_of_cons.
  - exists 0%Qc. split; [by apply inr_Qc_eq | done].
  - apply list_elem_of_singleton in Ha as ->.
    exists (-1)%Qc. split; [by apply inr_Qc_eq | done].
Qed.

(** X14 on [fork] and a new solver. *)
Lemma next_strategy_needs_regret_witness :
  ∃ e s', next_strategy fork DagRegMin_init = Raised e s'.
Proof.
  apply (next_strategy_needs_regret fork DagRegMin_init 1 1 [2]).
  - reflexivity.
  - apply (bool_decide_unpack _). vm_compute. exact I.
  - vm_compute; reflexivity.
Defined.

(** X15 on [fork]. *)
Lemma next_strategy_sequence_form_witness :
  ∃ p v,
    get_x_prime (final (next_strategy fork no_regret)) 1 2 = inr p
    ∧ x (final (next_strategy fork no_regret)) !! KNode 1 = Some (XNum v)
    ∧ x (final (next_strategy fork no_regret)) !! KSeq 1 2 = Some (XNum (p * v)%Qc).
Proof.
  apply (next_strategy_sequence_form fork no_regret _ 1 [1; 2] 2 fork_run).
  - apply (bool_decide_unpack _). vm_compute. exact I.
  - apply (bool_decide_unpack _). vm_compute. exact I.
  - vm_compute; reflexivity.
  - apply (bool_decide_unpack _). vm_compute. exact I.
Defined.

(** X16 on [fork]. *)
Lemma next_strategy_uniform_fallback_witness :
  get_x_prime (final (next_strategy fork no_regret)) 1 2
  = inr (1 / len [1; 2])%Qc.
Proof.
  apply (next_strategy_uniform_fallback fork no_regret _ 1 [1; 2] fork_run).
  - apply (bool_decide_unpack _). vm_compute. exact I.
  - vm_compute; reflexivity.
  - apply fork_not_positive.
  - apply (bool_decide_unpack _). vm_compute. exact I.
Defined.

(** X17 on [fork]. *)
Lemma next_strategy_even_shares_witness :
  ∃ v,
    x (final (next_strategy fork no_regret)) !! KNode 1 = Some (XNum v)
    ∧ x (final (next_strategy fork no_regret)) !! KSeq 1 2
      = Some (XNum (1 / len [1; 2] * v)%Qc).
Proof.
  apply (next_strategy_even_shares fork no_regret _ 1 [1; 2] fork_run).
  - apply (bool_decide_unpack _). vm_compute. exact I.
  - vm_compute; reflexivity.
  - apply fork_not_positive.
  - apply (bool_decide_unpack _). vm_compute. exact I.
Defined.

(** X18 on the terminal node of [fork]. *)
Lemma next_strategy_inactive_reach_witness :
  ∃ acts,
    child_of fork !! 2 = Some acts
    ∧ x (final (next_strategy fork no_regret)) !! KNode 2
      = Some (if acts is [] then XDict else XNum 1%Qc).
Proof.
  apply (next_strategy_inactive_reach fork no_regret _ 2 fork_run).
  - apply (bool_decide_unpack _). vm_compute. exact I.
  - apply (bool_decide_unpack _). vm_compute. exact I.
Defined.

(** X19 on [fork], from a clean solver and from a used one. *)
Lemma next_strategy_strategy_from_regret_witness :
  get_x_prime (final (next_strategy fork no_regret)) 1 1
  = get_x_prime (final (next_strategy fork no_regret_used)) 1 1.
Proof.
  apply (next_strategy_strategy_from_regret fork no_regret no_regret_used
           _ _ 1 [1; 2] 1).
  - reflexivity.
  - apply fork_run.
  - vm_compute; reflexivity.
  - apply (bool_decide_unpack _). vm_compute. exact I.
  - vm_compute; reflexivity.
  - apply (bool_decide_unpack _). vm_compute. exact I.
Defined.

(** X21 on [lone], where [observe_utility] returns. *)
Lemma observe_utility_done_witness : child_of lone !! 1 = Some [].
Proof.
  apply (observe_utility_done lone ∅ DagRegMin_init
           (final (observe_utility lone ∅ DagRegMin_init))).
  - vm_compute; reflexivity.
  - apply (bool_decide_unpack _). vm_compute. exact I.
Defined.

End solver_witnesses.
